(** * Pitivi: render-dialog compatibility resolver and timeline viewport

    A shallow embedding of the parts of [pitivi/render.py] and
    [pitivi/timeline/timeline.py] that the specification talks about,
    followed by the properties established about them.

    Conventions.
    - Integers of the Python code are [Z]; indices into Python lists are [nat].
    - A GObject property write ([obj.props.x = v]) is a functional update of a
      record or of a list cell; the list of layers returned by
      [bTimeline.get_layers()] is the list held by the model, in its order.
    - Signal connections are kept in an explicit connection table.
    - Helpers that live outside the two files ([Zoomable.nsToPixel], the zoom
      table of [Zoomable], the constants of [pitivi.utils.ui], the capability
      intersection of the media framework) are Section variables;
      [Zoomable.computeZoomLevel] and [Zoomable.setZoomLevel] are modelled
      from the specification. *)

From Stdlib Require Import ZArith QArith Qround Lia Ascii String DecimalString DecimalNat.
From stdpp Require Import base decidable option list gmap strings sorting.

Local Open Scope Z_scope.

(* ===================================================================== *)
(** ** Layer reordering: [ControlContainer.moveLayer]                    *)
(* ===================================================================== *)

Module Reorder.

(** The backend timeline as far as [moveLayer] sees it: the priority of each
    layer, in the order [get_layers()] lists them, and the flag toggled by
    [enable_update]. A layer is identified by its position in that list. *)
Record bTimeline := mkTimeline { layers : list Z; updates : bool }.

Definition enable_update (b : bool) (tl : bTimeline) : bTimeline :=
  {| layers := layers tl; updates := b |}.

(** [layer.props.priority = p] for the layer at position [i]. *)
Definition set_priority (i : nat) (p : Z) (tl : bTimeline) : bTimeline :=
  {| layers := <[i := p]> (layers tl); updates := updates tl |}.

(** Body of the first loop (moving a layer towards priority 0):
    [prio = layer.get_priority(); if target <= prio < priority: layer.props.priority = prio + 1]. *)
Definition shift_up_body (target priority : Z) (tl : bTimeline) (i : nat) : bTimeline :=
  match layers tl !! i with
  | Some prio =>
      if bool_decide (target <= prio < priority) then set_priority i (prio + 1) tl else tl
  | None => tl
  end.

(** Body of the second loop:
    [if priority < prio <= target: layer.props.priority = prio - 1]. *)
Definition shift_down_body (target priority : Z) (tl : bTimeline) (i : nat) : bTimeline :=
  match layers tl !! i with
  | Some prio =>
      if bool_decide (priority < prio <= target) then set_priority i (prio - 1) tl else tl
  | None => tl
  end.

(** [for layer in self.timeline.bTimeline.get_layers(): body]. The list is
    taken once, when the loop starts; the body reads the current priority. *)
Definition for_layers (body : bTimeline -> nat -> bTimeline) (tl : bTimeline) : bTimeline :=
  foldl body tl (seq 0 (length (layers tl))).

(** The timeline after each iteration of such a loop, oldest first. *)
Fixpoint iterations (body : bTimeline -> nat -> bTimeline) (tl : bTimeline)
    (idx : list nat) : list bTimeline :=
  match idx with
  | [] => []
  | i :: idx' => let tl' := body tl i in tl' :: iterations body tl' idx'
  end.

Definition for_layers_trace (body : bTimeline -> nat -> bTimeline) (tl : bTimeline)
    : list bTimeline :=
  iterations body tl (seq 0 (length (layers tl))).

(** The shifting part of [moveLayer], between the two writes to the moved layer. *)
Definition shift_layers (target priority : Z) (tl : bTimeline) : bTimeline :=
  if bool_decide (priority > target) then for_layers (shift_up_body target priority) tl
  else if bool_decide (priority < target) then for_layers (shift_down_body target priority) tl
  else tl.

Definition shift_layers_trace (target priority : Z) (tl : bTimeline) : list bTimeline :=
  if bool_decide (priority > target) then for_layers_trace (shift_up_body target priority) tl
  else if bool_decide (priority < target) then for_layers_trace (shift_down_body target priority) tl
  else [].

(** [moveLayer(control, target)], where [moved] is the position of
    [control.layer] among the timeline's layers. [None] stands for a control
    whose layer is not a layer of the timeline, which [addLayerControl] never
    creates and which is not modelled here. [_reorderLayerActors] only
    repositions widgets and leaves the model untouched. *)
Definition moveLayer (moved : nat) (target : Z) (tl : bTimeline) : option bTimeline :=
  match layers tl !! moved with
  | None => None
  | Some priority =>
      let tl1 := enable_update false tl in
      let tl2 := set_priority moved 999 tl1 in
      let tl3 := shift_layers target priority tl2 in
      let tl4 := set_priority moved target tl3 in
      Some (enable_update true tl4)
  end.

(** Every state of the model between the first and the last statement of
    [moveLayer]: after [enable_update(False)], after parking the moved layer
    at 999, after each loop iteration, after the final priority write. *)
Definition moveLayer_trace (moved : nat) (target : Z) (tl : bTimeline) : list bTimeline :=
  match layers tl !! moved with
  | None => []
  | Some priority =>
      let tl1 := enable_update false tl in
      let tl2 := set_priority moved 999 tl1 in
      let tr := shift_layers_trace target priority tl2 in
      let tl3 := shift_layers target priority tl2 in
      tl1 :: tl2 :: tr ++ [set_priority moved target tl3]
  end.

(** A sequence of reorders, each a control (layer position) and a target. *)
Fixpoint moveLayers (ops : list (nat * Z)) (tl : bTimeline) : option bTimeline :=
  match ops with
  | [] => Some tl
  | (moved, target) :: ops' =>
      match moveLayer moved target tl with
      | Some tl' => moveLayers ops' tl'
      | None => None
      end
  end.

(** The priorities 0 .. n-1. *)
Definition priorities (n : nat) : list Z := Z.of_nat <$> seq 0 n.

(** The layers hold each of 0 .. n-1 exactly once. *)
Definition well_numbered (tl : bTimeline) : Prop :=
  layers tl ≡ₚ priorities (length (layers tl)).

(** A reorder request as the drag callbacks issue it: an existing layer and a
    target priority in [0, n-1]. *)
Definition valid_op (n : nat) (op : nat * Z) : Prop :=
  (op.1 < n)%nat ∧ 0 <= op.2 < Z.of_nat n.

(** Where the first loop sends a priority, and where the second does. *)
Definition shifted_up (target priority p : Z) : Z :=
  if bool_decide (target <= p < priority) then p + 1 else p.
Definition shifted_down (target priority p : Z) : Z :=
  if bool_decide (priority < p <= target) then p - 1 else p.

(** The direction-dependent map the shifting part applies to every layer. *)
Definition shift (target priority p : Z) : Z :=
  if bool_decide (priority > target) then shifted_up target priority p
  else if bool_decide (priority < target) then shifted_down target priority p
  else p.

(** The renumbering a completed reorder performs: the moved layer's old
    priority becomes [target], the priorities between the two shift by one. *)
Definition renumber (target priority p : Z) : Z :=
  if bool_decide (p = priority) then target
  else if bool_decide (priority > target) then shifted_up target priority p
  else if bool_decide (priority < target) then shifted_down target priority p
  else p.

(** The three-layer timeline 0, 1, 2, updates on. *)
Definition three_layers : bTimeline := mkTimeline [0; 1; 2] true.

(** The claim on one reorder: the result is well numbered and no state in
    between has two layers with one priority. *)
Definition never_shared : Prop :=
  ∀ tl moved target,
    well_numbered tl → valid_op (length (layers tl)) (moved, target) →
    (∃ tl', moveLayer moved target tl = Some tl' ∧ well_numbered tl')
    ∧ ∀ st, st ∈ moveLayer_trace moved target tl → NoDup (layers st).

End Reorder.

(* ===================================================================== *)
(** ** Exceptions                                                        *)
(* ===================================================================== *)

(** The Python exceptions the modelled code can raise. *)
Inductive Exn :=
  | TypeError        (* disconnect_by_func: nothing connected *)
  | NameError        (* a local variable read before assignment *)
  | AttributeError   (* attribute access on None *)
  | ZeroDivisionError
  | KeyError (key : string).

(** A computation either returns a value or raises; the state reached by the
    statements executed before the raise is not kept. *)
Inductive Result (A : Type) :=
  | Ok (a : A)
  | Raise (e : Exn).
Arguments Ok {A} a.
Arguments Raise {A} e.

Definition rbind {A B} (r : Result A) (k : A -> Result B) : Result B :=
  match r with
  | Ok a => k a
  | Raise e => Raise e
  end.

Declare Scope result_scope.
Delimit Scope result_scope with result.
Notation "x <- r ;; k" := (rbind r (fun x => k))
  (at level 100, r at next level, right associativity) : result_scope.

(** [for x in xs: st = body st x], stopping at the first exception. *)
Fixpoint rfold {A S} (body : S -> A -> Result S) (st : S) (xs : list A) : Result S :=
  match xs with
  | [] => Ok st
  | x :: xs' => rbind (body st x) (fun st' => rfold body st' xs')
  end.

(* ===================================================================== *)
(** ** Encoder / muxer compatibility: [render.py]                        *)
(* ===================================================================== *)

Module Resolver.

Inductive PadDirection := UNKNOWN | SRC | SINK.

Global Instance PadDirection_eq_dec : EqDecision PadDirection.
Proof. solve_decision. Defined.

(** [str.split(sep)] for a one-character separator: every occurrence of the
    separator cuts, empty pieces are kept, the result is never empty. *)
Fixpoint split_on (sep : ascii) (s : string) : list string :=
  match s with
  | EmptyString => [EmptyString]
  | String c s' =>
      if decide (c = sep) then EmptyString :: split_on sep s'
      else match split_on sep s' with
           | [] => [String c EmptyString]
           | w :: ws => String c w :: ws
           end
  end.

(** [list_compat(a1, b1)]: every member of [a1] is in [b1]. *)
Fixpoint list_compat (a1 b1 : list string) : bool :=
  match a1 with
  | [] => true
  | x1 :: rest => if bool_decide (x1 ∈ b1) then list_compat rest b1 else false
  end.

Section Caps.

(** Capability sets belong to the media framework. [intersects c o] is
    [not c.intersect(o).is_empty()]. *)
Context {Caps : Type} (intersects : Caps -> Caps -> bool).

Record PadTemplate := mkTemplate {
  direction : PadDirection;
  get_caps : Caps;
}.

(** A [Gst.ElementFactory] as far as this file reads it. *)
Record ElementFactory := mkFactory {
  get_name : string;
  get_klass : string;
  get_longname : string;
  get_static_pad_templates : list PadTemplate;
}.

(** [my_can_sink_caps(muxer, ocaps, muxsinkcaps)]. *)
Definition my_can_sink_caps (muxer : ElementFactory) (ocaps : Caps)
    (muxsinkcaps : list Caps) : bool :=
  match muxsinkcaps with
  | _ :: _ =>
      (* fast version *)
      existsb (fun c => intersects c ocaps) muxsinkcaps
  | [] =>
      (* slower default *)
      existsb (fun x => bool_decide (direction x = SINK) && intersects (get_caps x) ocaps)
              (get_static_pad_templates muxer)
  end.

(** [[x.get_caps() for x in muxer.get_static_pad_templates() if x.direction == SINK]]. *)
Definition sink_caps (muxer : ElementFactory) : list Caps :=
  get_caps <$> List.filter (fun x => bool_decide (direction x = SINK))
                           (get_static_pad_templates muxer).

(** The inner loop of [encoders_muxer_compatible]: walk the encoder's
    templates until a source template passes [my_can_sink_caps] ([break]). *)
Fixpoint some_src_template_fits (muxer : ElementFactory) (muxsinkcaps : list Caps)
    (tpls : list PadTemplate) : bool :=
  match tpls with
  | [] => false
  | tpl :: rest =>
      if bool_decide (direction tpl = SRC) then
        if my_can_sink_caps muxer (get_caps tpl) muxsinkcaps then true
        else some_src_template_fits muxer muxsinkcaps rest
      else some_src_template_fits muxer muxsinkcaps rest
  end.

(** The outer loop: [res.append(encoder)] for each encoder that fits. *)
Fixpoint compatible_loop (muxer : ElementFactory) (muxsinkcaps : list Caps)
    (encoders : list ElementFactory) : list ElementFactory :=
  match encoders with
  | [] => []
  | encoder :: rest =>
      if some_src_template_fits muxer muxsinkcaps (get_static_pad_templates encoder)
      then encoder :: compatible_loop muxer muxsinkcaps rest
      else compatible_loop muxer muxsinkcaps rest
  end.

(** [encoders_muxer_compatible(encoders, muxer, muxsinkcaps=[])]. *)
Definition encoders_muxer_compatible (encoders : list ElementFactory)
    (muxer : ElementFactory) (muxsinkcaps : list Caps) : list ElementFactory :=
  let muxsinkcaps :=
    match muxsinkcaps with
    | [] => sink_caps muxer
    | _ :: _ => muxsinkcaps
    end in
  compatible_loop muxer muxsinkcaps encoders.

(** The three lists [CachedEncoderList._buildFactories] fills. *)
Record Classified := mkClassified {
  _audioEncoders : list ElementFactory;
  _videoEncoders : list ElementFactory;
  _muxers : list ElementFactory;
}.

Definition is_muxer (fact : ElementFactory) : bool :=
  list_compat ["Codec"; "Muxer"] (split_on "/" (get_klass fact)).
Definition is_video_encoder (fact : ElementFactory) : bool :=
  list_compat ["Codec"; "Encoder"; "Video"] (split_on "/" (get_klass fact))
  || list_compat ["Codec"; "Encoder"; "Image"] (split_on "/" (get_klass fact)).
Definition is_audio_encoder (fact : ElementFactory) : bool :=
  list_compat ["Codec"; "Encoder"; "Audio"] (split_on "/" (get_klass fact)).

(** [_buildFactories]: one pass over the registry's element factories, each
    appended to at most one of the three lists ([if] / [elif] / [elif]). *)
Fixpoint _buildFactories (factories : list ElementFactory) : Classified :=
  match factories with
  | [] => mkClassified [] [] []
  | fact :: rest =>
      let c := _buildFactories rest in
      if is_muxer fact then
        mkClassified (_audioEncoders c) (_videoEncoders c) (fact :: _muxers c)
      else if is_video_encoder fact then
        mkClassified (_audioEncoders c) (fact :: _videoEncoders c) (_muxers c)
      else if is_audio_encoder fact then
        mkClassified (fact :: _audioEncoders c) (_videoEncoders c) (_muxers c)
      else c
  end.

(** [CachedEncoderList]: [_factories is None] is [None] here; the registry's
    "feature-added" signal resets it. *)
Definition CachedEncoderList := option Classified.

Definition _registryFeatureAddedCb (cache : CachedEncoderList) : CachedEncoderList := None.

Definition ensure (registry : list ElementFactory) (cache : CachedEncoderList) : Classified :=
  match cache with
  | None => _buildFactories registry
  | Some c => c
  end.

Definition available_muxers registry (cache : CachedEncoderList)
    : list ElementFactory * CachedEncoderList :=
  let c := ensure registry cache in (_muxers c, Some c).
Definition available_audio_encoders registry (cache : CachedEncoderList)
    : list ElementFactory * CachedEncoderList :=
  let c := ensure registry cache in (_audioEncoders c, Some c).
Definition available_video_encoders registry (cache : CachedEncoderList)
    : list ElementFactory * CachedEncoderList :=
  let c := ensure registry cache in (_videoEncoders c, Some c).

(** What [available_combinations] returns. *)
Record Combinations := mkCombinations {
  containers : list ElementFactory;
  audio : gmap string (list ElementFactory);
  video : gmap string (list ElementFactory);
}.

Definition truthy {A} (l : list A) : bool :=
  match l with [] => false | _ :: _ => true end.

(** The test [if aencs and vencs] of the loop below. *)
Definition has_both (aencoders vencoders : list ElementFactory) (muxer : ElementFactory)
    : bool :=
  truthy (encoders_muxer_compatible aencoders muxer [])
  && truthy (encoders_muxer_compatible vencoders muxer []).

(** One iteration of [for muxer in muxers]. *)
Definition combination_body (aencoders vencoders : list ElementFactory)
    (acc : Combinations) (muxer : ElementFactory) : Combinations :=
  let mux := get_name muxer in
  let aencs := encoders_muxer_compatible aencoders muxer [] in
  let vencs := encoders_muxer_compatible vencoders muxer [] in
  if truthy aencs && truthy vencs then
    {| containers := containers acc ++ [muxer];
       audio := <[mux := aencs]> (audio acc);
       video := <[mux := vencs]> (video acc) |}
  else acc.

(** [available_combinations()], reading the registry through the cache. *)
Definition available_combinations (registry : list ElementFactory)
    (cache : CachedEncoderList) : Combinations :=
  let '(aencoders, cache) := available_audio_encoders registry cache in
  let '(vencoders, cache) := available_video_encoders registry cache in
  let '(muxers, cache) := available_muxers registry cache in
  foldl (combination_body aencoders vencoders) (mkCombinations [] ∅ ∅) muxers.

(** The specification's wording of compatibility: some output capability set
    of the encoder meets some input capability set of the muxer. *)
Definition sinks_meet (muxer : ElementFactory) (ocaps : Caps) : Prop :=
  Exists (fun x => direction x = SINK ∧ intersects (get_caps x) ocaps)
         (get_static_pad_templates muxer).

Definition compatible (muxer encoder : ElementFactory) : Prop :=
  Exists (fun tpl => direction tpl = SRC ∧ sinks_meet muxer (get_caps tpl))
         (get_static_pad_templates encoder).

Global Instance compatible_dec muxer encoder : Decision (compatible muxer encoder).
Proof. unfold compatible, sinks_meet. apply _. Defined.

End Caps.

Arguments PadTemplate : clear implicits.
Arguments ElementFactory : clear implicits.
Arguments Classified : clear implicits.
Arguments Combinations : clear implicits.
Arguments CachedEncoderList : clear implicits.

(** *** A small registry

    Capability sets reduced to a media type; two of them intersect when they
    name the same type. *)

Definition src (c : string) : PadTemplate string := mkTemplate SRC c.
Definition sink (c : string) : PadTemplate string := mkTemplate SINK c.

Definition oggmux : ElementFactory string :=
  mkFactory "oggmux" "Codec/Muxer" "Ogg muxer"
            [sink "audio/x-vorbis"; sink "video/x-theora"; src "application/ogg"].
Definition wavenc : ElementFactory string :=
  mkFactory "wavenc" "Codec/Muxer/Audio" "WAV audio muxer"
            [sink "audio/x-raw"; sink "audio/x-alaw"; src "audio/x-wav"].
Definition vorbisenc : ElementFactory string :=
  mkFactory "vorbisenc" "Codec/Encoder/Audio" "Vorbis audio encoder"
            [sink "audio/x-raw"; src "audio/x-vorbis"].
Definition alawenc : ElementFactory string :=
  mkFactory "alawenc" "Codec/Encoder/Audio" "A Law audio encoder"
            [sink "audio/x-raw"; src "audio/x-alaw"].
Definition theoraenc : ElementFactory string :=
  mkFactory "theoraenc" "Codec/Encoder/Video" "Theora video encoder"
            [sink "video/x-raw"; src "video/x-theora"].

Definition sample_registry : list (ElementFactory string) :=
  [vorbisenc; oggmux; theoraenc; wavenc; alawenc].

End Resolver.

(* ===================================================================== *)
(** ** Display names: [beautify_factoryname]                             *)
(* ===================================================================== *)

Module Beautify.

(** [str.replace] scanning left to right: [skip] counts the characters of a
    match just replaced that are still to be passed over. *)
Fixpoint replace_from (old new : string) (skip : nat) (s : string) : string :=
  match s with
  | EmptyString => EmptyString
  | String c s' =>
      match skip with
      | S k => replace_from old new k s'
      | O =>
          if String.prefix old s
          then String.append new (replace_from old new (String.length old - 1) s')
          else String c (replace_from old new 0 s')
      end
  end.

(** [str.replace] with an empty pattern puts [new] around every character. *)
Fixpoint replace_empty (new : string) (s : string) : string :=
  match s with
  | EmptyString => new
  | String c s' => String.append new (String c (replace_empty new s'))
  end.

(** [s.replace(old, new)]: every non-overlapping occurrence, leftmost first. *)
Definition replace (old new : string) (s : string) : string :=
  match old with
  | EmptyString => replace_empty new s
  | String _ _ => replace_from old new 0 s
  end.

(** The characters [str.split()] treats as separators: space, tab, line feed,
    vertical tab, form feed, carriage return. *)
Definition is_space (c : ascii) : bool :=
  let n := nat_of_ascii c in
  (Nat.eqb n 32 || (Nat.leb 9 n && Nat.leb n 13))%bool.

(** Cut at every separator character, keeping empty pieces. *)
Fixpoint pieces (s : string) : list string :=
  match s with
  | EmptyString => [EmptyString]
  | String c s' =>
      if is_space c then EmptyString :: pieces s'
      else match pieces s' with
           | [] => [String c EmptyString]
           | w :: ws => String c w :: ws
           end
  end.

Definition nonempty (s : string) : bool :=
  match s with EmptyString => false | String _ _ => true end.

(** [s.split()]: the maximal runs of non-separator characters. *)
Definition split (s : string) : list string := List.filter nonempty (pieces s).

(** [sep.join(words)]. *)
Fixpoint join (sep : string) (words : list string) : string :=
  match words with
  | [] => EmptyString
  | [w] => w
  | w :: ws => String.append w (String.append sep (join sep ws))
  end.

Definition words_to_remove : list string :=
  ["Muxer"; "muxer"; "Encoder"; "encoder";
   "format"; "video"; "audio"; "instead";
   "Flash Video (FLV) /"]%string.

Definition words_to_replace : list (string * string) :=
  [("version ", "v"); ("Microsoft", "MS")]%string.

(** [for word in words_to_remove: name = name.replace(word, "")]. *)
Definition remove_words (words : list string) (name : string) : string :=
  foldl (fun name word => replace word EmptyString name) name words.

(** [for match, replacement in words_to_replace: name = name.replace(match, replacement)]. *)
Definition replace_words (pairs : list (string * string)) (name : string) : string :=
  foldl (fun name p => replace p.1 p.2 name) name pairs.

(** [beautify_factoryname(factory)], as a function of [factory.get_longname()]. *)
Definition beautify_factoryname (longname : string) : string :=
  let name := remove_words words_to_remove longname in
  let name := replace_words words_to_replace name in
  join " " (split name).

(** The same two passes in the opposite order, for comparison. *)
Definition replacements_first (longname : string) : string :=
  let name := replace_words words_to_replace longname in
  let name := remove_words words_to_remove name in
  join " " (split name).

(** No separator character occurs in the string. *)
Fixpoint space_free (s : string) : bool :=
  match s with
  | EmptyString => true
  | String c s' => negb (is_space c) && space_free s'
  end.

(** A word as [split] produces it: not empty, no separator inside. *)
Definition word (w : string) : Prop := nonempty w = true ∧ space_free w = true.

(** [w in s]: the string [w] occurs somewhere in [s]. *)
Fixpoint occurs (w s : string) : bool :=
  String.prefix w s
  || match s with
     | EmptyString => false
     | String _ s' => occurs w s'
     end.

End Beautify.

(* ===================================================================== *)
(** ** Codec settings on new elements: [RenderDialog._elementAddedCb]    *)
(* ===================================================================== *)

Module RenderDialog.

Section Element.

(** Property values are opaque; factories are compared with [==]. *)
Context {Value Factory : Type} `{EqDecision Factory}.

(** A [Gst.Element] added to the encode bin: its factory and its properties. *)
Record Element := mkElement {
  get_factory : Factory;
  properties : gmap string Value;
}.

Definition set_property (setting : string) (v : Value) (element : Element) : Element :=
  {| get_factory := get_factory element;
     properties := <[setting := v]> (properties element) |}.

(** [RenderSettings], the two per-encoder property maps. *)
Record RenderSettings := mkSettings {
  vcodecsettings : gmap string Value;
  acodecsettings : gmap string Value;
}.

(** [d[key]]. *)
Definition getitem (d : gmap string Value) (key : string) : Result Value :=
  match d !! key with
  | Some v => Ok v
  | None => Raise (KeyError key)
  end.

(** [for setting in codecsettings: element.set_property(setting, source[setting])]:
    the names come from one map, the values from [source]. *)
Definition apply_settings (names source : gmap string Value) (element : Element)
    : Result Element :=
  rfold (fun element setting =>
           rbind (getitem source setting) (fun v => Ok (set_property setting v element)))
        element (map_to_list names).*1.

(** [_elementAddedCb(bin, element)]; the two combo values are the selected
    video and audio encoder factories. *)
Definition _elementAddedCb (video_encoder_combo audio_encoder_combo : Factory)
    (settings : RenderSettings) (element : Element) : Result Element :=
  if decide (get_factory element = video_encoder_combo) then
    apply_settings (vcodecsettings settings) (vcodecsettings settings) element
  else if decide (get_factory element = audio_encoder_combo) then
    apply_settings (acodecsettings settings) (vcodecsettings settings) element
  else Ok element.

End Element.

Arguments Element : clear implicits.
Arguments RenderSettings : clear implicits.

(** *** A sample dialog state: both maps name "bitrate". *)

Definition sample_settings : RenderSettings Z :=
  mkSettings {[ "bitrate" := 2000 ]} {[ "bitrate" := 128 ]}.

Definition new_vorbisenc : Element Z string := mkElement "vorbisenc" ∅.

(** A dialog state whose audio map names a property the video map lacks. *)
Definition mismatched_settings : RenderSettings Z :=
  mkSettings {[ "bitrate" := 2000 ]} {[ "quality" := 3 ]}.

(** What is claimed of an element of the audio encoder, whatever the two
    maps hold: the callback returns, and the element then carries, under
    every name of the audio codec settings, the value the video codec
    settings store under that name. *)
Definition audio_names_set_from_video {Value Factory : Type} `{EqDecision Factory}
    (venc aenc : Factory) (settings : RenderSettings Value)
    (element : Element Value Factory) : Prop :=
  ∃ element', _elementAddedCb venc aenc settings element = Ok element'
    ∧ ∀ k, k ∈ dom (acodecsettings settings) →
        ∃ v, vcodecsettings settings !! k = Some v
             ∧ properties element' !! k = Some v.

End RenderDialog.

(* ===================================================================== *)
(** ** The timeline viewport: [TimelineStage] and its container          *)
(* ===================================================================== *)

Module Viewport.

(** *** The backend model the viewport reads *)

Inductive TrackType := AUDIO | VIDEO.

Global Instance TrackType_eq_dec : EqDecision TrackType.
Proof. solve_decision. Defined.

(** A [GES.TrackElement]: [get_start()], [get_track_type()], whether
    [get_parent()] is a [GES.TransitionClip], and
    [get_parent().get_layer().get_priority()]. *)
Record TrackElement := mkTrackElement {
  get_start : Z;
  get_track_type : TrackType;
  in_transition_clip : bool;
  layer_priority : Z;
}.

(** A [GES.Timeline]: its tracks and layers (by identity) and its duration. *)
Record GESTimeline := mkGESTimeline {
  get_tracks : list nat;
  get_layers : list nat;
  get_duration : Z;
}.

(** The backend objects, looked up by identity. The viewport holds
    references (identities) and reads the current values through them. *)
Record Model := mkModel {
  timeline_at : nat -> GESTimeline;
  element_at : nat -> TrackElement;
}.

(** *** Signal connections *)

Inductive GObject :=
  | Timeline (id : nat)
  | Track (id : nat)
  | Layer (id : nat)
  | Element (id : nat).

Global Instance GObject_eq_dec : EqDecision GObject.
Proof. solve_decision. Defined.

(** The bound methods of [TimelineStage] that are connected to signals. *)
Inductive Callback :=
  | _trackAddedCb | _trackRemovedCb | _layerAddedCb | _layerRemovedCb
  | _snapCb_ | _snapEndedCb_
  | _trackElementAddedCb | _trackElementRemovedCb
  | _elementStartChangedCb | _elementDurationChangedCb
  | _elementInPointChangedCb | _elementPriorityChangedCb.

Global Instance Callback_eq_dec : EqDecision Callback.
Proof. solve_decision. Defined.

Record Connection := mkConnection {
  emitter : GObject;
  signal : string;
  callback : Callback;
}.

(** *** Widgets *)

(** The screen proxy of a track element ([ClipElement] / [TransitionElement]). *)
Record Proxy := mkProxy {
  bElement : nat;
  is_transition : bool;
  z_position : Z;
  x : Z;
  y : Z;
}.

(** [_snap_indicator]: created 3 pixels wide at y = 0, hidden. *)
Record Indicator := mkIndicator {
  ind_x : Z;
  ind_height : Z;
  ind_visible : bool;
}.

(** A [Gtk.Adjustment]. *)
Record Adjustment := mkAdjustment {
  lower : Z;
  upper : Z;
  page_size : Z;
  page_increment : Q;
  step_increment : Q;
}.

(** The attributes of [TimelineStage]. *)
Record Stage := mkStage {
  bTimeline : option nat;
  elements : list Proxy;
  width : Z;
  height : Z;
  playhead_x : Z;
  playhead_height : Z;
  _snap_indicator : Indicator;
  lastPosition : Z;
}.

(** The attributes of the [Timeline] widget (the stage's [_container]):
    its own [bTimeline] attribute, the scroll adjustments, the fit flag, the
    layer controls (layer, isAudio) and the allocated widths of the embedding
    widget and of the ruler. *)
Record Container := mkContainer {
  c_bTimeline : option nat;
  hadj : Adjustment;
  vadj_upper : Z;
  zoomed_fitted : bool;
  controlActors : list (nat * bool);
  embed_width : Z;
  ruler_width : Z;
}.

(** Everything the viewport code touches: the process-wide zoom level of
    [Zoomable], the signal connections, the stage and its container. *)
Record UI := mkUI {
  zoom_level : Z;
  connections : list Connection;
  stage : Stage;
  container : Container;
}.

Definition with_connections (c : list Connection) (ui : UI) : UI :=
  mkUI (zoom_level ui) c (stage ui) (container ui).
Definition with_stage (s : Stage) (ui : UI) : UI :=
  mkUI (zoom_level ui) (connections ui) s (container ui).
Definition with_container (c : Container) (ui : UI) : UI :=
  mkUI (zoom_level ui) (connections ui) (stage ui) c.
Definition with_zoom_level (z : Z) (ui : UI) : UI :=
  mkUI z (connections ui) (stage ui) (container ui).

Definition with_bTimeline (b : option nat) (s : Stage) : Stage :=
  mkStage b (elements s) (width s) (height s) (playhead_x s) (playhead_height s)
          (_snap_indicator s) (lastPosition s).
Definition with_elements (els : list Proxy) (s : Stage) : Stage :=
  mkStage (bTimeline s) els (width s) (height s) (playhead_x s) (playhead_height s)
          (_snap_indicator s) (lastPosition s).
Definition with_width (w : Z) (s : Stage) : Stage :=
  mkStage (bTimeline s) (elements s) w (height s) (playhead_x s) (playhead_height s)
          (_snap_indicator s) (lastPosition s).
Definition with_height (h : Z) (s : Stage) : Stage :=
  mkStage (bTimeline s) (elements s) (width s) h (playhead_x s) (playhead_height s)
          (_snap_indicator s) (lastPosition s).
Definition with_playhead_x (px : Z) (s : Stage) : Stage :=
  mkStage (bTimeline s) (elements s) (width s) (height s) px (playhead_height s)
          (_snap_indicator s) (lastPosition s).
Definition with_playhead_height (h : Z) (s : Stage) : Stage :=
  mkStage (bTimeline s) (elements s) (width s) (height s) (playhead_x s) h
          (_snap_indicator s) (lastPosition s).
Definition with_snap_indicator (i : Indicator) (s : Stage) : Stage :=
  mkStage (bTimeline s) (elements s) (width s) (height s) (playhead_x s) (playhead_height s)
          i (lastPosition s).

Definition with_hadj (a : Adjustment) (c : Container) : Container :=
  mkContainer (c_bTimeline c) a (vadj_upper c) (zoomed_fitted c) (controlActors c)
              (embed_width c) (ruler_width c).
Definition with_vadj_upper (u : Z) (c : Container) : Container :=
  mkContainer (c_bTimeline c) (hadj c) u (zoomed_fitted c) (controlActors c)
              (embed_width c) (ruler_width c).
Definition with_zoomed_fitted (b : bool) (c : Container) : Container :=
  mkContainer (c_bTimeline c) (hadj c) (vadj_upper c) b (controlActors c)
              (embed_width c) (ruler_width c).
Definition with_controlActors (l : list (nat * bool)) (c : Container) : Container :=
  mkContainer (c_bTimeline c) (hadj c) (vadj_upper c) (zoomed_fitted c) l
              (embed_width c) (ruler_width c).

(** Reading an attribute of [None] raises. *)
Definition deref {A} (o : option A) : Result A :=
  match o with
  | Some a => Ok a
  | None => Raise AttributeError
  end.

Definition SECOND : Z := 1000000000.

(** The width given to every layer control and to the zoom box, and the x
    position of the stage beside them. *)
Definition CONTROL_WIDTH : Z := 250.

(** The locals of [updateHScrollAdjustments] that hold constants: the
    measured widths are commented out in the source and replaced by 0. *)
Definition controls_width : Z := 0.
Definition scrollbar_width : Z := 0.
Definition end_padding : Z := 500.

Section Operations.

(** Outside the two files: [Zoomable.nsToPixel] (as a function of the current
    zoom level), and [EXPANDED_SIZE] and [SPACING] of [pitivi.utils.ui]. *)
Variable nsToPixel : Z -> Z -> Z.
Variables EXPANDED_SIZE SPACING : Z.

(** What [disconnect_by_func] does when nothing is connected: raise
    [TypeError] ([true]) or nothing at all ([false]). *)
Variable strict : bool.

Local Open Scope result_scope.

(** [obj.connect(signal, callback)]. *)
Definition connect (obj : GObject) (sig : string) (cb : Callback) (ui : UI) : UI :=
  with_connections (connections ui ++ [mkConnection obj sig cb]) ui.

Definition connected (obj : GObject) (cb : Callback) (c : Connection) : bool :=
  bool_decide (emitter c = obj) && bool_decide (callback c = cb).

(** [obj.disconnect_by_func(callback)]. *)
Definition disconnect_by_func (obj : GObject) (cb : Callback) (ui : UI) : Result UI :=
  if existsb (connected obj cb) (connections ui) then
    Ok (with_connections (List.filter (fun c => negb (connected obj cb c)) (connections ui)) ui)
  else if strict then Raise TypeError
  else Ok ui.

Definition _connectTrack (ui : UI) (track : nat) : UI :=
  let ui := connect (Track track) "track-element-added" _trackElementAddedCb ui in
  connect (Track track) "track-element-removed" _trackElementRemovedCb ui.

Definition _disconnectTrack (ui : UI) (track : nat) : Result UI :=
  ui <- disconnect_by_func (Track track) _trackElementAddedCb ui;;
  disconnect_by_func (Track track) _trackElementRemovedCb ui.

(** [len(self.bTimeline.get_layers())] on the stage. *)
Definition nbrLayers (m : Model) (ui : UI) : Result Z :=
  t <- deref (bTimeline (stage ui));;
  Ok (Z.of_nat (length (get_layers (timeline_at m t)))).

Definition _updatePlayHead (m : Model) (ui : UI) : Result UI :=
  n <- nbrLayers m ui;;
  let height := n * (EXPANDED_SIZE + SPACING) * 2 in
  Ok (with_stage (with_playhead_height height (stage ui)) ui).

(** [_setElementX]: [element.props.x = self.nsToPixel(element.bElement.get_start())]. *)
Definition _setElementX (m : Model) (ui : UI) (element : Proxy) : Proxy :=
  mkProxy (bElement element) (is_transition element) (z_position element)
          (nsToPixel (zoom_level ui) (get_start (element_at m (bElement element))))
          (y element).

(** [_setElementY]. *)
Definition _setElementY (m : Model) (ui : UI) (element : Proxy) : Result Proxy :=
  let b := element_at m (bElement element) in
  y0 <- (if decide (get_track_type b = AUDIO)
         then n <- nbrLayers m ui;; Ok (n * (EXPANDED_SIZE + SPACING))
         else Ok 0);;
  let y1 := y0 + (layer_priority b * (EXPANDED_SIZE + SPACING) + SPACING) in
  Ok (mkProxy (bElement element) (is_transition element) (z_position element)
              (x element) y1).

(** [for element in self.elements: self._setElementY(element)]. *)
Fixpoint setY_all (m : Model) (ui : UI) (els : list Proxy) : Result (list Proxy) :=
  match els with
  | [] => Ok []
  | e :: rest =>
      e' <- _setElementY m ui e;;
      rest' <- setY_all m ui rest;;
      Ok (e' :: rest')
  end.

(** [Timeline.updateHScrollAdjustments] (a method of the container). *)
Definition updateHScrollAdjustments (m : Model) (ui : UI) : Result UI :=
  let c := container ui in
  let timeline_ui_width := embed_width c in
  t <- deref (c_bTimeline c);;
  let contents_size := nsToPixel (zoom_level ui) (get_duration (timeline_at m t)) in
  let widgets_width := controls_width + scrollbar_width in
  let c := with_hadj {| lower := 0;
                        upper := contents_size + widgets_width + end_padding;
                        page_size := timeline_ui_width;
                        page_increment := (inject_Z contents_size * (9 # 10))%Q;
                        step_increment := (inject_Z contents_size * (1 # 10))%Q |} c in
  let c := if bool_decide (contents_size + widgets_width <= timeline_ui_width)
           then with_zoomed_fitted true c else c in
  Ok (with_container c ui).

(** [TimelineStage._updateSize]. *)
Definition _updateSize (m : Model) (ui : UI) : Result UI :=
  t <- deref (bTimeline (stage ui));;
  let w := nsToPixel (zoom_level ui) (get_duration (timeline_at m t)) + 250 in
  let ui := with_stage (with_width w (stage ui)) ui in
  updateHScrollAdjustments m ui.

(** [TimelineStage._redraw]. *)
Definition _redraw (m : Model) (ui : UI) : Result UI :=
  ui <- _updateSize m ui;;
  let els := _setElementX m ui <$> elements (stage ui) in
  let s := with_elements els (stage ui) in
  let s := with_playhead_x (nsToPixel (zoom_level ui) (lastPosition s)) s in
  Ok (with_stage s ui).

(** [TimelineStage.zoomChanged], the stage's reaction to a new zoom level. *)
Definition zoomChanged (m : Model) (ui : UI) : Result UI := _redraw m ui.

(** [Timeline.zoomChanged], the container's reaction; the write to the
    model's snapping distance is outside this model. *)
Definition container_zoomChanged (m : Model) (ui : UI) : Result UI :=
  updateHScrollAdjustments m ui.

(** [ControlContainer.addLayerControl]: a video and an audio control. *)
Definition addLayerControl (layer : nat) (c : Container) : Container :=
  with_controlActors (controlActors c ++ [(layer, false); (layer, true)]) c.

(** [TimelineStage._add_layer]. *)
Definition _add_layer (m : Model) (ui : UI) (layer : nat) : Result UI :=
  els <- setY_all m ui (elements (stage ui));;
  n <- nbrLayers m ui;;
  let h := (n + 1) * (EXPANDED_SIZE + SPACING) * 2 + SPACING in
  let s := with_height h (with_elements els (stage ui)) in
  let c := addLayerControl layer (with_vadj_upper h (container ui)) in
  _updatePlayHead m (with_container c (with_stage s ui)).

(** [TimelineStage.setTimeline(bTimeline)]. *)
Definition setTimeline (m : Model) (new : nat) (ui : UI) : Result UI :=
  ui <- match bTimeline (stage ui) with
        | Some old =>
            ui <- disconnect_by_func (Timeline old) _trackAddedCb ui;;
            ui <- disconnect_by_func (Timeline old) _trackRemovedCb ui;;
            ui <- disconnect_by_func (Timeline old) _layerAddedCb ui;;
            ui <- disconnect_by_func (Timeline old) _layerRemovedCb ui;;
            ui <- disconnect_by_func (Timeline old) _snapCb_ ui;;
            disconnect_by_func (Timeline old) _snapEndedCb_ ui
        | None => Ok ui
        end;;
  let ui := with_stage (with_bTimeline (Some new) (stage ui)) ui in
  let ui := foldl _connectTrack ui (get_tracks (timeline_at m new)) in
  ui <- rfold (_add_layer m) ui (get_layers (timeline_at m new));;
  let ui := connect (Timeline new) "track-added" _trackAddedCb ui in
  let ui := connect (Timeline new) "track-removed" _trackRemovedCb ui in
  let ui := connect (Timeline new) "layer-added" _layerAddedCb ui in
  let ui := connect (Timeline new) "layer-removed" _layerRemovedCb ui in
  let ui := connect (Timeline new) "snapping-started" _snapCb_ ui in
  let ui := connect (Timeline new) "snapping-ended" _snapEndedCb_ ui in
  zoomChanged m ui.

(** [Timeline.setTimeline], the container's entry point. *)
Definition container_setTimeline (m : Model) (new : nat) (ui : UI) : Result UI :=
  let c := container ui in
  let c := mkContainer (Some new) (hadj c) (vadj_upper c) (zoomed_fitted c)
                       (controlActors c) (embed_width c) (ruler_width c) in
  setTimeline m new (with_container c ui).

(** [_addTimelineElement(track, bElement)]. *)
Definition _addTimelineElement (m : Model) (ui : UI) (track b : nat) : Result UI :=
  let element :=
    if in_transition_clip (element_at m b)
    then mkProxy b true 0 0 0
    else mkProxy b false (-1) 0 0 in
  let ui := connect (Element b) "notify::start" _elementStartChangedCb ui in
  let ui := connect (Element b) "notify::duration" _elementDurationChangedCb ui in
  let ui := connect (Element b) "notify::in-point" _elementInPointChangedCb ui in
  let ui := connect (Element b) "notify::priority" _elementPriorityChangedCb ui in
  element <- _setElementY m ui element;;
  let element := _setElementX m ui element in
  Ok (with_stage (with_elements (elements (stage ui) ++ [element]) (stage ui)) ui).

(** The list position bound to the loop variable [element] when
    [for element in self.elements: if element.bElement == bElement: break]
    ends; [cur] is the binding before the loop reaches [els]. *)
Fixpoint loop_variable (b : nat) (els : list Proxy) (i : nat) (cur : option nat)
    : option nat :=
  match els with
  | [] => cur
  | e :: rest =>
      if decide (bElement e = b) then Some i
      else loop_variable b rest (S i) (Some i)
  end.

(** [_removeTimelineElement(track, bElement)]. *)
Definition _removeTimelineElement (m : Model) (ui : UI) (track b : nat) : Result UI :=
  ui <- disconnect_by_func (Element b) _elementStartChangedCb ui;;
  ui <- disconnect_by_func (Element b) _elementDurationChangedCb ui;;
  ui <- disconnect_by_func (Element b) _elementInPointChangedCb ui;;
  match loop_variable b (elements (stage ui)) 0 None with
  | None => Raise NameError
  | Some i =>
      Ok (with_stage (with_elements (delete i (elements (stage ui))) (stage ui)) ui)
  end.

Definition _trackElementAddedCb_ (m : Model) (ui : UI) (track b : nat) : Result UI :=
  ui <- _updateSize m ui;;
  _addTimelineElement m ui track b.

Definition _trackElementRemovedCb_ (m : Model) (ui : UI) (track b : nat) : Result UI :=
  _removeTimelineElement m ui track b.

(** [_elementStartChangedCb(bElement, start, element)]; [element] is the proxy
    the callback was connected with, the one showing [bElement]. The two
    branches on [isDragged] set the same x and differ in easing only. *)
Definition _elementStartChangedCb_ (m : Model) (ui : UI) (b : nat) : Result UI :=
  ui <- _updateSize m ui;;
  let els := (fun e => if decide (bElement e = b) then _setElementX m ui e else e)
               <$> elements (stage ui) in
  Ok (with_stage (with_elements els (stage ui)) ui).

(** [_elementDurationChangedCb(bElement, duration, element)];
    [element.update(False)] redraws the proxy itself, outside the two files. *)
Definition _elementDurationChangedCb_ (m : Model) (ui : UI) (b : nat) : Result UI :=
  _updateSize m ui.

(** [_snapEndedCb]. *)
Definition _snapEndedCb (ui : UI) : UI :=
  let i := _snap_indicator (stage ui) in
  with_stage (with_snap_indicator (mkIndicator (ind_x i) (ind_height i) false) (stage ui)) ui.

(** [_snapCb(timeline, obj1, obj2, position)]. *)
Definition _snapCb (m : Model) (ui : UI) (position : Z) : Result UI :=
  if decide (position = 0) then Ok (_snapEndedCb ui)
  else
    let px := nsToPixel (zoom_level ui) position in
    n <- nbrLayers m ui;;
    let height := n * (EXPANDED_SIZE + SPACING) * 2 in
    Ok (with_stage (with_snap_indicator (mkIndicator px height true) (stage ui)) ui).

(** The zoom table of [Zoomable] (pitivi/utils/timeline.py), which is outside
    the two files: the ratio, in pixels per second, of each zoom level, and
    the highest level, which the code reads as [Zoomable.zoom_steps]. *)
Variable zoom_ratio : Z -> Q.
Variable zoom_steps : Z.

(** Modelled from the spec: [Zoomable.computeZoomLevel] is not under src/.
    The spec has the zoom level index a discrete table of pixels-per-second
    ratios over the levels 0 to the highest level, and has the best fit be
    the largest level whose ratio keeps the duration within the width. The
    level for a ratio [r] is the largest level of the table whose ratio is at
    most [r]; it is level 0 when no level above 0 has such a ratio. *)
Fixpoint largest_level_upto (r : Q) (n : nat) : Z :=
  match n with
  | O => 0
  | S k =>
      if Qle_bool (zoom_ratio (Z.of_nat (S k))) r then Z.of_nat (S k)
      else largest_level_upto r k
  end.

(** Modelled from the spec: [Zoomable.computeZoomLevel] is not under src/;
    the search above, over the whole table. *)
Definition computeZoomLevel (r : Q) : Z := largest_level_upto r (Z.to_nat zoom_steps).

(** Modelled from the spec: [Zoomable.setZoomLevel] is not under src/. In
    the spec a zoom level request outside the range from 0 to the highest
    level clamps to the nearest bound, and the level is process-wide state.
    The notifications sent to the zoomable widgets are not modelled. *)
Definition setZoomLevel (level : Z) (ui : UI) : UI :=
  with_zoom_level (Z.max 0 (Z.min level zoom_steps)) ui.

(** [Timeline._setBestZoomRatio]. *)
Definition _setBestZoomRatio (m : Model) (ui : UI) : Result UI :=
  let ruler_width := ruler_width (container ui) in
  t <- deref (bTimeline (stage ui));;
  let duration := get_duration (timeline_at m t) in
  if decide (duration = 0) then Ok ui
  else
    let timeline_duration := duration + SECOND - 1 in
    let timeline_duration_s := timeline_duration / SECOND in
    if decide (timeline_duration_s = 0) then Raise ZeroDivisionError
    else
      let ideal_zoom_ratio := (inject_Z ruler_width / inject_Z timeline_duration_s)%Q in
      let nearest_zoom_level := computeZoomLevel ideal_zoom_ratio in
      let ui := setZoomLevel nearest_zoom_level ui in
      Ok (with_container (with_zoomed_fitted true (container ui)) ui).

End Operations.

(** *** Properties of states used in the statements below *)

(** The connections still held on the timeline [t], its tracks and layers. *)
Definition on_timeline (m : Model) (t : nat) (c : Connection) : Prop :=
  emitter c = Timeline t
  ∨ (∃ track, track ∈ get_tracks (timeline_at m t) ∧ emitter c = Track track)
  ∨ (∃ layer, layer ∈ get_layers (timeline_at m t) ∧ emitter c = Layer layer).

(** The element [b] has a proxy on screen. *)
Definition displayed (b : nat) (ui : UI) : Prop :=
  ∃ p, p ∈ elements (stage ui) ∧ bElement p = b.

(** [level] is the largest zoom level in [0, max_level] whose ratio (pixels
    per second) is at most [r]. *)
Definition largest_level_within (zoom_ratio : Z -> Q) (max_level : Z) (r : Q) (level : Z)
    : Prop :=
  0 <= level <= max_level
  ∧ (zoom_ratio level <= r)%Q
  ∧ ∀ l, 0 <= l <= max_level → (zoom_ratio l <= r)%Q → l <= level.

(** The duration rounded up to whole seconds, as [_setBestZoomRatio] does. *)
Definition whole_seconds (duration : Z) : Z := (duration + SECOND - 1) / SECOND.

(** The duration in seconds, as it is. *)
Definition seconds (duration : Z) : Q := (inject_Z duration / inject_Z SECOND)%Q.

(** [level] is the largest zoom level in [0, max_level] that shows [s] seconds
    within [w] pixels. *)
Definition largest_fit (zoom_ratio : Z -> Q) (max_level : Z) (s : Q) (w : Z) (level : Z)
    : Prop :=
  0 <= level <= max_level
  ∧ (s * zoom_ratio level <= inject_Z w)%Q
  ∧ ∀ l, 0 <= l <= max_level → (s * zoom_ratio l <= inject_Z w)%Q → l <= level.

(** What is claimed of every run of the best-fit computation: the level it
    ends at is 0 when the duration is zero, and otherwise the largest level
    whose ratio keeps duration * ratio within the ruler width. *)
Definition best_fit_as_stated (zoom_ratio : Z -> Q) (zoom_steps : Z) (m : Model) (ui : UI)
    : Prop :=
  ∀ t ui',
    bTimeline (stage ui) = Some t →
    _setBestZoomRatio zoom_ratio zoom_steps m ui = Ok ui' →
    let duration := get_duration (timeline_at m t) in
    if decide (duration = 0) then zoom_level ui' = 0
    else largest_fit zoom_ratio zoom_steps (seconds duration)
                     (ruler_width (container ui)) (zoom_level ui').

(** What is claimed of the scroll region of a viewport bound to [t]: the pixel
    width of the duration plus the width of the control panel plus the end
    padding. *)
Definition width_with_controls (nsToPixel : Z -> Z -> Z) (m : Model) (t : nat) (ui : UI)
    : Prop :=
  upper (hadj (container ui))
  = nsToPixel (zoom_level ui) (get_duration (timeline_at m t)) + CONTROL_WIDTH + end_padding.

(** *** A sample session

    Timeline 1 has one track (10) and one layer (20); timeline 2 is empty.
    Element 7 is a video clip on layer priority 0 starting at 2 s. *)

Definition sample_model : Model :=
  mkModel (fun t => if decide (t = 1%nat) then mkGESTimeline [10%nat] [20%nat] (5 * SECOND)
                    else mkGESTimeline [] [] 0)
          (fun b => mkTrackElement (2 * SECOND) VIDEO false 0).

(** Pixels for a time at a zoom level, for the sample session only. *)
Definition sample_nsToPixel (level ns : Z) : Z := ns * (level + 1) / SECOND.
Definition sample_EXPANDED_SIZE : Z := 65.
Definition sample_SPACING : Z := 10.

(** The state [__init__] leaves, in a window 800 pixels wide at zoom level 5. *)
Definition fresh_ui : UI :=
  mkUI 5 []
       (mkStage None [] 0 0 0 0 (mkIndicator 0 0 false) 0)
       (mkContainer None (mkAdjustment 0 0 0 0 0) 500 false [] 800 800).

(** The same window once bound to timeline 1, before any layout pass. *)
Definition bound_ui : UI :=
  mkUI 5 []
       (mkStage (Some 1%nat) [] 0 0 0 0 (mkIndicator 0 0 false) 0)
       (mkContainer (Some 1%nat) (mkAdjustment 0 0 0 0 0) 500 false [] 800 800).

(** The window bound to the empty timeline 2, whose duration is 0. *)
Definition empty_ui : UI :=
  mkUI 5 []
       (mkStage (Some 2%nat) [] 0 0 0 0 (mkIndicator 0 0 false) 0)
       (mkContainer (Some 2%nat) (mkAdjustment 0 0 0 0 0) 500 false [] 800 800).

(** A zoom table for the sample session: level [l] shows [l + 1] pixels per
    second, levels 0 to 9. *)
Definition sample_zoom_ratio (level : Z) : Q := inject_Z (level + 1).
Definition sample_zoom_steps : Z := 9.

(** The sample model once its element is gone and timeline 1 has shrunk from
    5 s to 2 s. *)
Definition shrunk_model : Model :=
  mkModel (fun t => if decide (t = 1%nat) then mkGESTimeline [10%nat] [20%nat] (2 * SECOND)
                    else mkGESTimeline [] [] 0)
          (element_at sample_model).

(** A model whose timelines last a second and a half. *)
Definition short_model : Model :=
  mkModel (fun t => mkGESTimeline [10%nat] [20%nat] 1500000000)
          (element_at sample_model).

(** The bound sample window with a ruler 9 pixels wide, and with a ruler that
    has no width yet. *)
Definition narrow_ui : UI :=
  mkUI 5 []
       (mkStage (Some 1%nat) [] 0 0 0 0 (mkIndicator 0 0 false) 0)
       (mkContainer (Some 1%nat) (mkAdjustment 0 0 0 0 0) 500 false [] 800 9).
Definition unallocated_ui : UI :=
  mkUI 5 []
       (mkStage (Some 1%nat) [] 0 0 0 0 (mkIndicator 0 0 false) 0)
       (mkContainer (Some 1%nat) (mkAdjustment 0 0 0 0 0) 500 false [] 0 0).

(** [ControlContainer._setTrackControlPosition(control)], as a function of
    [control.layer.get_priority()] and [control.isAudio]: the position given
    to the control. *)
Definition _setTrackControlPosition (EXPANDED_SIZE SPACING : Z) (m : Model) (ui : UI)
    (priority : Z) (isAudio : bool) : Result (Z * Z) :=
  let y := priority * (EXPANDED_SIZE + SPACING) + SPACING in
  rbind (if isAudio
         then rbind (nbrLayers m ui) (fun n => Ok (y + n * (EXPANDED_SIZE + SPACING)))
         else Ok y)
        (fun y => Ok (0, y)).

(** *** What a binding connects *)

(** The six callbacks [setTimeline] connects to a timeline. *)
Definition timeline_callbacks : list Callback :=
  [_trackAddedCb; _trackRemovedCb; _layerAddedCb; _layerRemovedCb; _snapCb_; _snapEndedCb_].

(** The connections [setTimeline] makes on the timeline [t], in its order. *)
Definition timeline_connections (t : nat) : list Connection :=
  [mkConnection (Timeline t) "track-added" _trackAddedCb;
   mkConnection (Timeline t) "track-removed" _trackRemovedCb;
   mkConnection (Timeline t) "layer-added" _layerAddedCb;
   mkConnection (Timeline t) "layer-removed" _layerRemovedCb;
   mkConnection (Timeline t) "snapping-started" _snapCb_;
   mkConnection (Timeline t) "snapping-ended" _snapEndedCb_].

(** The connections [_connectTrack] makes, track after track. *)
Definition track_connections (tracks : list nat) : list Connection :=
  tracks ≫= fun track =>
    [mkConnection (Track track) "track-element-added" _trackElementAddedCb;
     mkConnection (Track track) "track-element-removed" _trackElementRemovedCb].

(** The connections [_addTimelineElement] makes on the element [b]. *)
Definition element_connections (b : nat) : list Connection :=
  [mkConnection (Element b) "notify::start" _elementStartChangedCb;
   mkConnection (Element b) "notify::duration" _elementDurationChangedCb;
   mkConnection (Element b) "notify::in-point" _elementInPointChangedCb;
   mkConnection (Element b) "notify::priority" _elementPriorityChangedCb].

(** Each of the six callbacks is connected to the timeline [t]. *)
Definition listening (t : nat) (ui : UI) : Prop :=
  ∀ cb, cb ∈ timeline_callbacks →
    ∃ c, c ∈ connections ui ∧ emitter c = Timeline t ∧ callback c = cb.

(** A model with two layers: element 7 is video on the top layer, element 8
    audio on the second layer, every other element video on the second. *)
Definition layout_model : Model :=
  mkModel (fun t => mkGESTimeline [10%nat; 11%nat] [20%nat; 21%nat] (8 * SECOND))
          (fun b => if decide (b = 7%nat) then mkTrackElement (2 * SECOND) VIDEO false 0
                    else if decide (b = 8%nat) then mkTrackElement (4 * SECOND) AUDIO false 1
                    else mkTrackElement 0 VIDEO false 1).

(** The bound sample window showing elements 7 and 8, not yet laid out. *)
Definition showing_ui : UI :=
  mkUI 5 []
       (mkStage (Some 1%nat) [mkProxy 7 false (-1) 0 0; mkProxy 8 false (-1) 0 0]
                0 0 0 0 (mkIndicator 0 0 false) (3 * SECOND))
       (mkContainer (Some 1%nat) (mkAdjustment 0 0 0 0 0) 500 false [] 800 800).

(** The sample window after a first binding has connected the six callbacks
    to timeline 1. *)
Definition listening_ui : UI :=
  mkUI 5 (timeline_connections 1)
       (mkStage (Some 1%nat) [] 0 0 0 0 (mkIndicator 0 0 false) 0)
       (mkContainer (Some 1%nat) (mkAdjustment 0 0 0 0 0) 500 false [] 800 800).

End Viewport.

(* ===================================================================== *)
(** ** Selectable lists and preset names: [factorylist], [_getUniquePresetName] *)
(* ===================================================================== *)

Module Lists.

(** [a <= b] on Python 2 [str] values: byte by byte, a proper prefix first. *)
Fixpoint str_le (a b : string) : bool :=
  match a, b with
  | EmptyString, _ => true
  | String _ _, EmptyString => false
  | String x a', String y b' =>
      if Nat.ltb (nat_of_ascii x) (nat_of_ascii y) then true
      else if Nat.ltb (nat_of_ascii y) (nat_of_ascii x) then false
      else str_le a' b'
  end.

Section Rows.

(** [factorylist] reads the rank and the long name of a factory. *)
Context {Factory : Type} (get_rank : Factory -> Z) (get_longname : Factory -> string).

(** Put a row before the first row whose name is not smaller. *)
Fixpoint insert_row (r : string * Factory) (rows : list (string * Factory))
    : list (string * Factory) :=
  match rows with
  | [] => [r]
  | r' :: rest =>
      if str_le r.1 r'.1 then r :: r' :: rest else r' :: insert_row r rest
  end.

(** [data.sort(key=lambda x: x[0])]: the stable sort on the name column. *)
Fixpoint sort_rows (rows : list (string * Factory)) : list (string * Factory) :=
  match rows with
  | [] => []
  | r :: rest => insert_row r (sort_rows rest)
  end.

(** Two rows in the order of their names. *)
Definition by_name (r r' : string * Factory) : Prop := str_le r.1 r'.1 = true.

(** The list comprehension of [factorylist]. *)
Definition rows_of (factories : list Factory) : list (string * Factory) :=
  (fun factory => (Beautify.beautify_factoryname (get_longname factory), factory))
    <$> List.filter (fun factory => 0 <? get_rank factory) factories.

(** [factorylist(factories)]: the rows handed to the list store. *)
Definition factorylist (factories : list Factory) : list (string * Factory) :=
  sort_rows (rows_of factories).

End Rows.

(** [str(i)] for a natural number. *)
Definition decimal (i : nat) : string := NilEmpty.string_of_uint (Nat.to_uint i).

(** The [while] loop of [_getUniquePresetName], at most [fuel] tests. The
    strings are the untranslated ones. *)
Fixpoint unique_name_loop (fuel : nat) (existing_preset_names : list string)
    (preset_name : string) (i : nat) : option string :=
  match fuel with
  | O => None
  | S fuel' =>
      if bool_decide (preset_name ∈ existing_preset_names) then
        unique_name_loop fuel' existing_preset_names
          (String.append "New preset " (decimal i)) (S i)
      else Some preset_name
  end.

(** [_getUniquePresetName(mgr)], as a function of [mgr.getPresetNames()]. *)
Definition _getUniquePresetName (fuel : nat) (existing_preset_names : list string)
    : option string :=
  unique_name_loop fuel existing_preset_names "New preset" 1.

(** The [k]-th name the loop tries. *)
Definition candidate (k : nat) : string :=
  match k with
  | O => "New preset"
  | S _ => String.append "New preset " (decimal k)
  end.

End Lists.

(* ===================================================================== *)
(** ** Output check buttons of the render dialog                         *)
(* ===================================================================== *)

Module Outputs.

(** The widgets the two callbacks touch: whether each check button is active
    and whether each of the other widgets is sensitive. *)
Record Widgets := mkWidgets {
  audio_output_checkbutton : bool;
  video_output_checkbutton : bool;
  channels_combo : bool;
  sample_rate_combo : bool;
  sample_depth_combo : bool;
  audio_encoder_combo : bool;
  audio_settings_button : bool;
  scale_spinbutton : bool;
  frame_rate_combo : bool;
  video_encoder_combo : bool;
  video_settings_button : bool;
  render_button : bool;
}.

(** [_audioOutputCheckbuttonToggledCb]. *)
Definition _audioOutputCheckbuttonToggledCb (w : Widgets) : Widgets :=
  let active := audio_output_checkbutton w in
  if active then
    mkWidgets (audio_output_checkbutton w) (video_output_checkbutton w)
              true true true true true
              (scale_spinbutton w) (frame_rate_combo w) (video_encoder_combo w)
              (video_settings_button w)
              true
  else
    mkWidgets (audio_output_checkbutton w) (video_output_checkbutton w)
              false false false false false
              (scale_spinbutton w) (frame_rate_combo w) (video_encoder_combo w)
              (video_settings_button w)
              (if negb (video_output_checkbutton w) then false else render_button w).

(** [_videoOutputCheckbuttonToggledCb]. *)
Definition _videoOutputCheckbuttonToggledCb (w : Widgets) : Widgets :=
  let active := video_output_checkbutton w in
  if active then
    mkWidgets (audio_output_checkbutton w) (video_output_checkbutton w)
              (channels_combo w) (sample_rate_combo w) (sample_depth_combo w)
              (audio_encoder_combo w) (audio_settings_button w)
              true true true true
              true
  else
    mkWidgets (audio_output_checkbutton w) (video_output_checkbutton w)
              (channels_combo w) (sample_rate_combo w) (sample_depth_combo w)
              (audio_encoder_combo w) (audio_settings_button w)
              false false false false
              (if negb (audio_output_checkbutton w) then false else render_button w).

(** The user flips one of the two check buttons; the toolkit changes the
    button's state and then runs the button's callback. *)
Inductive Click := ClickAudio | ClickVideo.

Definition set_audio_active (b : bool) (w : Widgets) : Widgets :=
  mkWidgets b (video_output_checkbutton w)
            (channels_combo w) (sample_rate_combo w) (sample_depth_combo w)
            (audio_encoder_combo w) (audio_settings_button w)
            (scale_spinbutton w) (frame_rate_combo w) (video_encoder_combo w)
            (video_settings_button w) (render_button w).

Definition set_video_active (b : bool) (w : Widgets) : Widgets :=
  mkWidgets (audio_output_checkbutton w) b
            (channels_combo w) (sample_rate_combo w) (sample_depth_combo w)
            (audio_encoder_combo w) (audio_settings_button w)
            (scale_spinbutton w) (frame_rate_combo w) (video_encoder_combo w)
            (video_settings_button w) (render_button w).

Definition click (w : Widgets) (c : Click) : Widgets :=
  match c with
  | ClickAudio =>
      _audioOutputCheckbuttonToggledCb (set_audio_active (negb (audio_output_checkbutton w)) w)
  | ClickVideo =>
      _videoOutputCheckbuttonToggledCb (set_video_active (negb (video_output_checkbutton w)) w)
  end.

(** The render button is usable exactly when some output is selected. *)
Definition render_matches_outputs (w : Widgets) : Prop :=
  render_button w = audio_output_checkbutton w || video_output_checkbutton w.

(** Both outputs selected, everything sensitive. *)
Definition all_on : Widgets :=
  mkWidgets true true true true true true true true true true true true.

End Outputs.

(* ===================================================================== *)
(** ** Output file name: [extension_for_muxer], [updateFilename]         *)
(* ===================================================================== *)

Module Filename.

(** The dictionary of [extension_for_muxer]. *)
Definition exts : list (string * string) :=
  [("asfmux", "asf"); ("avimux", "avi"); ("ffmux_3g2", "3g2"); ("ffmux_avm2", "avm2");
   ("ffmux_dvd", "vob"); ("ffmux_flv", "flv"); ("ffmux_ipod", "mp4");
   ("ffmux_mpeg", "mpeg"); ("ffmux_mpegts", "mpeg"); ("ffmux_psp", "mp4");
   ("ffmux_rm", "rm"); ("ffmux_svcd", "mpeg"); ("ffmux_swf", "swf");
   ("ffmux_vcd", "mpeg"); ("ffmux_vob", "vob"); ("flvmux", "flv"); ("gppmux", "3gp");
   ("matroskamux", "mkv"); ("mj2mux", "mj2"); ("mp4mux", "mp4"); ("mpegpsmux", "mpeg");
   ("mpegtsmux", "mpeg"); ("mvemux", "mve"); ("mxfmux", "mxf"); ("oggmux", "ogv");
   ("qtmux", "mov"); ("webmmux", "webm")]%string.

(** [d.get(key)] on a dictionary written as its items. *)
Fixpoint dict_get (d : list (string * string)) (key : string) : option string :=
  match d with
  | [] => None
  | (k, v) :: d' => if decide (k = key) then Some v else dict_get d' key
  end.

(** [extension_for_muxer(muxer)]. *)
Definition extension_for_muxer (muxer : string) : option string := dict_get exts muxer.

(** [updateFilename(basename)] with [self.settings.muxer = muxer]: the text
    put in the file entry. *)
Definition updateFilename (muxer : string) (basename : string) : string :=
  match extension_for_muxer muxer with
  | Some (String c e) => String.append basename (String.append "." (String c e))
  | Some EmptyString | None => basename
  end.

(** [s.rfind(c)] for one character: the last position, if any. *)
Fixpoint rfind_pos (c : ascii) (s : string) : option nat :=
  match s with
  | EmptyString => None
  | String a s' =>
      match rfind_pos c s' with
      | Some i => Some (S i)
      | None => if decide (a = c) then Some O else None
      end
  end.

(** [s.rfind(c)], -1 when the character is absent. *)
Definition rfind (c : ascii) (s : string) : Z :=
  match rfind_pos c s with
  | Some i => Z.of_nat i
  | None => -1
  end.

(** [s[:n]] and [s[n:]] for [0 <= n]. *)
Fixpoint str_take (n : nat) (s : string) : string :=
  match n, s with
  | S n', String a s' => String a (str_take n' s')
  | _, _ => EmptyString
  end.

Fixpoint str_drop (n : nat) (s : string) : string :=
  match n, s with
  | S n', String _ s' => str_drop n' s'
  | _, _ => s
  end.

(** The [while filenameIndex < dotIndex] loop of [genericpath._splitext],
    [fuel] bounding the number of tests. *)
Fixpoint splitext_loop (fuel : nat) (p : string) (filenameIndex dotIndex : nat)
    : string * string :=
  match fuel with
  | O => (p, EmptyString)
  | S fuel' =>
      if Nat.ltb filenameIndex dotIndex then
        match String.get filenameIndex p with
        | Some c =>
            if decide (c = "."%char) then splitext_loop fuel' p (S filenameIndex) dotIndex
            else (str_take dotIndex p, str_drop dotIndex p)
        | None => (p, EmptyString)
        end
      else (p, EmptyString)
  end.

(** [os.path.splitext(p)] of [posixpath]: the extension starts at the last
    dot of the last path component, leading dots of the component apart. *)
Definition splitext (p : string) : string * string :=
  let sepIndex := rfind "/" p in
  let dotIndex := rfind "." p in
  if dotIndex >? sepIndex then
    splitext_loop (Z.to_nat (dotIndex - sepIndex)) p
                  (Z.to_nat (sepIndex + 1)) (Z.to_nat dotIndex)
  else (p, EmptyString).

(** What [_muxerComboChangedCb] and [muxer_setter] put in the file entry
    when the muxer becomes [muxer] and the entry holds [text]. *)
Definition on_muxer_change (muxer : string) (text : string) : string :=
  let basename := (splitext text).1 in
  updateFilename muxer basename.

(** The last path component of [basename] has a character that is no dot. *)
Definition has_stem (basename : string) : Prop :=
  ∃ i c, rfind "/" basename < Z.of_nat i
         ∧ String.get i basename = Some c ∧ c ≠ "."%char.

(** The string has no dot and no slash. *)
Fixpoint plain (s : string) : bool :=
  match s with
  | EmptyString => true
  | String a s' =>
      negb (bool_decide (a = "."%char)) && negb (bool_decide (a = "/"%char)) && plain s'
  end.

End Filename.

(* ===================================================================== *)
(** * Properties                                                         *)
(* ===================================================================== *)

(** ** Layer reordering *)

Module ReorderFacts.
Import Reorder.

Lemma elem_of_priorities (n : nat) (p : Z) : p ∈ priorities n ↔ 0 <= p < Z.of_nat n.
Proof.
  unfold priorities. rewrite list_elem_of_fmap. split.
  - intros (k & -> & Hk). apply elem_of_seq in Hk. lia.
  - intros Hp. exists (Z.to_nat p). split; [lia|]. apply elem_of_seq. lia.
Qed.

Lemma NoDup_priorities (n : nat) : NoDup (priorities n).
Proof.
  unfold priorities. apply NoDup_fmap_2; [|apply NoDup_seq].
  intros a b. lia.
Qed.

Lemma length_priorities (n : nat) : length (priorities n) = n.
Proof. unfold priorities. by rewrite length_fmap, length_seq. Qed.

(** A loop whose body rewrites only the visited layer, as a function of its
    priority, maps that function over all layers. *)
Section Loop.
Variable body : bTimeline -> nat -> bTimeline.
Variable f : Z -> Z.
Hypothesis body_layers : ∀ tl i j,
  layers (body tl i) !! j = if decide (j = i) then f <$> layers tl !! i else layers tl !! j.
Hypothesis body_updates : ∀ tl i, updates (body tl i) = updates tl.

Lemma foldl_body_lookup (m k : nat) (tl : bTimeline) (j : nat) :
  layers (foldl body tl (seq k m)) !! j =
    if bool_decide (k ≤ j < k + m)%nat then f <$> layers tl !! j else layers tl !! j.
Proof.
  revert k tl. induction m as [|m IH]; intros k tl; simpl.
  - rewrite bool_decide_eq_false_2 by lia. done.
  - rewrite IH, body_layers.
    destruct (decide (j = k)) as [->|Hne].
    + rewrite bool_decide_eq_false_2 by lia.
      rewrite bool_decide_eq_true_2 by lia. done.
    + destruct (decide (S k ≤ j < S k + m)%nat).
      * rewrite !bool_decide_eq_true_2 by lia. done.
      * rewrite !bool_decide_eq_false_2 by lia. done.
Qed.

Lemma foldl_body_updates (idx : list nat) (tl : bTimeline) :
  updates (foldl body tl idx) = updates tl.
Proof.
  revert tl. induction idx as [|i idx IH]; intros tl; simpl; [done|].
  by rewrite IH, body_updates.
Qed.

Lemma for_layers_layers (tl : bTimeline) :
  layers (for_layers body tl) = f <$> layers tl.
Proof.
  apply list_eq. intros j. unfold for_layers.
  rewrite foldl_body_lookup, list_lookup_fmap.
  case_bool_decide as Hj; [done|].
  rewrite (lookup_ge_None_2 (layers tl) j) by lia. done.
Qed.

Lemma iterations_updates (idx : list nat) (tl st : bTimeline) :
  st ∈ iterations body tl idx → updates st = updates tl.
Proof.
  revert tl. induction idx as [|i idx IH]; intros tl; simpl.
  - by intros ?%elem_of_nil.
  - intros [->|Hin]%elem_of_cons; [apply body_updates|].
    rewrite (IH _ Hin). apply body_updates.
Qed.
End Loop.

Lemma shift_up_body_layers target priority tl i j :
  layers (shift_up_body target priority tl i) !! j =
    if decide (j = i) then shifted_up target priority <$> layers tl !! i else layers tl !! j.
Proof.
  unfold shift_up_body, shifted_up.
  destruct (layers tl !! i) as [prio|] eqn:Hi; simpl.
  - case_bool_decide; simpl.
    + destruct (decide (j = i)) as [->|].
      * apply list_lookup_insert_eq. by eapply lookup_lt_Some.
      * by apply list_lookup_insert_ne.
    + destruct (decide (j = i)) as [->|]; done.
  - destruct (decide (j = i)) as [->|]; done.
Qed.

Lemma shift_down_body_layers target priority tl i j :
  layers (shift_down_body target priority tl i) !! j =
    if decide (j = i) then shifted_down target priority <$> layers tl !! i else layers tl !! j.
Proof.
  unfold shift_down_body, shifted_down.
  destruct (layers tl !! i) as [prio|] eqn:Hi; simpl.
  - case_bool_decide; simpl.
    + destruct (decide (j = i)) as [->|].
      * apply list_lookup_insert_eq. by eapply lookup_lt_Some.
      * by apply list_lookup_insert_ne.
    + destruct (decide (j = i)) as [->|]; done.
  - destruct (decide (j = i)) as [->|]; done.
Qed.

Lemma shift_up_body_updates target priority tl i :
  updates (shift_up_body target priority tl i) = updates tl.
Proof.
  unfold shift_up_body. destruct (layers tl !! i); [|done]. by case_bool_decide.
Qed.

Lemma shift_down_body_updates target priority tl i :
  updates (shift_down_body target priority tl i) = updates tl.
Proof.
  unfold shift_down_body. destruct (layers tl !! i); [|done]. by case_bool_decide.
Qed.

Lemma shift_layers_layers target priority tl :
  layers (shift_layers target priority tl) = shift target priority <$> layers tl.
Proof.
  unfold shift_layers, shift. repeat case_bool_decide.
  - apply for_layers_layers, shift_up_body_layers.
  - apply for_layers_layers, shift_down_body_layers.
  - by rewrite list_fmap_id.
Qed.

Lemma shift_layers_updates target priority tl :
  updates (shift_layers target priority tl) = updates tl.
Proof.
  unfold shift_layers, for_layers. repeat case_bool_decide; [| |done].
  - apply foldl_body_updates, shift_up_body_updates.
  - apply foldl_body_updates, shift_down_body_updates.
Qed.

Global Instance renumber_inj target priority : Inj (=) (=) (renumber target priority).
Proof.
  intros a b. unfold renumber, shifted_up, shifted_down.
  repeat case_bool_decide; lia.
Qed.

Lemma renumber_range (n : Z) target priority p :
  0 <= target < n → 0 <= priority < n → 0 <= p < n →
  0 <= renumber target priority p < n.
Proof.
  unfold renumber, shifted_up, shifted_down. repeat case_bool_decide; lia.
Qed.

(** What a completed reorder leaves in the model. *)
Lemma moveLayer_layers moved target tl priority :
  layers tl !! moved = Some priority →
  NoDup (layers tl) →
  ∃ tl', moveLayer moved target tl = Some tl'
         ∧ layers tl' = renumber target priority <$> layers tl
         ∧ updates tl' = true.
Proof.
  intros Hm Hnd. unfold moveLayer. rewrite Hm. eexists. split; [done|]. split; [|done].
  simpl. rewrite shift_layers_layers. simpl.
  rewrite list_fmap_insert, list_insert_insert_eq.
  apply list_eq. intros j. rewrite list_lookup_fmap.
  destruct (decide (j = moved)) as [->|Hne].
  - rewrite list_lookup_insert_eq.
    + rewrite Hm. simpl. unfold renumber. by rewrite bool_decide_eq_true_2.
    + rewrite length_fmap. by eapply lookup_lt_Some.
  - rewrite list_lookup_insert_ne by done. rewrite list_lookup_fmap.
    destruct (layers tl !! j) as [p|] eqn:Hj; [|done]. simpl. f_equal.
    unfold renumber, shift. rewrite (bool_decide_eq_false_2 (p = priority)); [done|].
    intros ->. apply Hne. by eapply NoDup_lookup.
Qed.

Lemma renumber_priorities (n : nat) target priority :
  0 <= target < Z.of_nat n → 0 <= priority < Z.of_nat n →
  renumber target priority <$> priorities n ≡ₚ priorities n.
Proof.
  intros Ht Hp. apply submseteq_length_Permutation.
  - apply NoDup_submseteq.
    + apply NoDup_fmap_2; [apply _|apply NoDup_priorities].
    + intros q (p & -> & Hin)%list_elem_of_fmap.
      apply elem_of_priorities in Hin. apply elem_of_priorities.
      by apply renumber_range.
  - by rewrite length_fmap.
Qed.

Lemma moveLayer_well_numbered moved target tl :
  well_numbered tl → valid_op (length (layers tl)) (moved, target) →
  ∃ tl', moveLayer moved target tl = Some tl'
         ∧ well_numbered tl'
         ∧ length (layers tl') = length (layers tl)
         ∧ updates tl' = true.
Proof.
  intros Hwn [Hmoved Htarget]. simpl in *.
  destruct (lookup_lt_is_Some_2 (layers tl) moved Hmoved) as [priority Hm].
  assert (NoDup (layers tl)) as Hnd.
  { unfold well_numbered in Hwn. rewrite Hwn. apply NoDup_priorities. }
  destruct (moveLayer_layers moved target tl priority Hm Hnd) as (tl' & Heq & Hl & Hu).
  exists tl'. split; [done|].
  assert (length (layers tl') = length (layers tl)) as Hlen by (by rewrite Hl, length_fmap).
  split; [|done].
  unfold well_numbered. rewrite Hlen, Hl.
  etrans; [apply fmap_Permutation, Hwn|].
  apply renumber_priorities; [done|].
  apply elem_of_priorities. unfold well_numbered in Hwn. rewrite <- Hwn.
  by eapply list_elem_of_lookup_2.
Qed.

(** While a reorder is under way the model's update propagation is off. *)
Lemma moveLayer_trace_suspended moved target tl st :
  st ∈ moveLayer_trace moved target tl → updates st = false.
Proof.
  unfold moveLayer_trace. destruct (layers tl !! moved) as [priority|]; [|by intros ?%elem_of_nil].
  set (tl2 := set_priority moved 999 (enable_update false tl)).
  intros [->|[->|Hin]%elem_of_cons]%elem_of_cons; [done|done|].
  apply elem_of_app in Hin as [Hin|Hin].
  - unfold shift_layers_trace, for_layers_trace in Hin.
    repeat case_bool_decide.
    + by rewrite (iterations_updates _ (shift_up_body_updates target priority) _ _ _ Hin).
    + by rewrite (iterations_updates _ (shift_down_body_updates target priority) _ _ _ Hin).
    + by apply elem_of_nil in Hin.
  - apply list_elem_of_singleton in Hin as ->. simpl.
    by rewrite shift_layers_updates.
Qed.

(** Starting from layers numbered 0 .. n-1, every sequence of reorders of
    layers of the timeline whose targets lie in [0, n-1] runs to completion
    and leaves the layers numbered 0 .. n-1 again: a permutation, hence
    without duplicates, over the same number of layers. *)
Theorem moveLayers_well_numbered (ops : list (nat * Z)) (tl : bTimeline) :
  well_numbered tl →
  Forall (valid_op (length (layers tl))) ops →
  ∃ tl', moveLayers ops tl = Some tl'
         ∧ layers tl' ≡ₚ priorities (length (layers tl))
         ∧ NoDup (layers tl').
Proof.
  revert tl. induction ops as [|[moved target] ops IH]; intros tl Hwn Hops.
  - exists tl. split; [done|]. split; [done|].
    unfold well_numbered in Hwn. rewrite Hwn. apply NoDup_priorities.
  - apply Forall_cons in Hops as [Hop Hops].
    destruct (moveLayer_well_numbered moved target tl Hwn Hop) as (tl1 & Heq & Hwn1 & Hlen & _).
    simpl. rewrite Heq.
    destruct (IH tl1 Hwn1) as (tl' & Hrun & Hperm & Hnd); [by rewrite Hlen|].
    exists tl'. by rewrite <- Hlen.
Qed.

Lemma moveLayers_well_numbered_witness :
  ∃ tl', moveLayers [(2%nat, 0); (0%nat, 2)] three_layers = Some tl'
         ∧ layers tl' ≡ₚ priorities 3
         ∧ NoDup (layers tl').
Proof.
  apply (moveLayers_well_numbered [(2%nat, 0); (0%nat, 2)] three_layers).
  - unfold well_numbered. simpl. reflexivity.
  - repeat constructor; simpl; lia.
Defined.

(** The requirement on one reorder fails: dragging the bottom layer of three
    to the top sends layer 0 to priority 1 while layer 1 still holds it. *)
Lemma moveLayer_shares_a_priority : ¬ never_shared.
Proof.
  intros H.
  destruct (H three_layers 2%nat 0) as [_ Hnd].
  - unfold well_numbered. simpl. reflexivity.
  - split; simpl; lia.
  - specialize (Hnd (mkTimeline [1; 1; 999] false)).
    assert (¬ NoDup [1; 1; 999]) as Hdup.
    { intros Hn. apply NoDup_cons in Hn as [Hn _]. apply Hn. by left. }
    apply Hdup, Hnd. vm_compute. do 2 right. left.
Qed.

(** C1. [moveLayer] parks the moved layer at priority 999 so that no layer
    meets it while the others shift, and with the layers listed in ascending
    priority the downward loop keeps all priorities apart at every step; the
    upward loop walks the layers in the same order and does not. On the
    layers 0, 1, 2, moving layer 2 to priority 0 goes through the states
    below: after the first iteration layers 0 and 1 both hold priority 1.
    Moving layer 0 to priority 2 never has two layers on one priority. Both
    reorders end on a permutation of 0, 1, 2. *)
Theorem moveLayer_upward_shares_a_priority :
  moveLayer_trace 2 0 three_layers
  = [ mkTimeline [0; 1; 2] false;
      mkTimeline [0; 1; 999] false;
      mkTimeline [1; 1; 999] false;
      mkTimeline [1; 2; 999] false;
      mkTimeline [1; 2; 999] false;
      mkTimeline [1; 2; 0] false ]
  ∧ ¬ NoDup (layers (mkTimeline [1; 1; 999] false))
  ∧ moveLayer 2 0 three_layers = Some (mkTimeline [1; 2; 0] true)
  ∧ (∀ st, st ∈ moveLayer_trace 0 2 three_layers → NoDup (layers st))
  ∧ moveLayer 0 2 three_layers = Some (mkTimeline [2; 0; 1] true).
Proof.
  split; [reflexivity|]. split.
  { simpl. intros Hn. apply NoDup_cons in Hn as [Hn _]. apply Hn. by left. }
  split; [reflexivity|]. split; [|reflexivity].
  intros st Hin. apply list_elem_of_In in Hin. vm_compute in Hin.
  repeat (destruct Hin as [<-|Hin];
          [simpl; repeat (apply NoDup_cons; split;
                          [rewrite list_elem_of_In; simpl; lia|]);
           apply NoDup_nil_2|]).
  destruct Hin.
Qed.

End ReorderFacts.

(** ** Encoder / muxer compatibility *)

Module ResolverFacts.
Import Resolver.

Section Caps.
Context {Caps : Type} (intersects : Caps -> Caps -> bool).

Local Abbreviation Factory := (ElementFactory Caps).
Local Abbreviation compat := (compatible intersects).
Local Abbreviation sinks_meet := (Resolver.sinks_meet intersects).

Lemma slow_path_sinks_meet (muxer : Factory) ocaps :
  existsb (fun x => bool_decide (direction x = SINK) && intersects (get_caps x) ocaps)
          (get_static_pad_templates muxer) = true
  ↔ sinks_meet muxer ocaps.
Proof.
  unfold sinks_meet. rewrite existsb_exists, Exists_exists. split.
  - intros (x & Hin & Hx). exists x. apply list_elem_of_In in Hin.
    apply andb_true_iff in Hx as [Hd Hi]. apply bool_decide_eq_true in Hd.
    split; [done|]. split; [done|]. by apply Is_true_true.
  - intros (x & Hin & Hd & Hi). exists x. split; [by apply list_elem_of_In|].
    apply andb_true_iff. split; [by apply bool_decide_eq_true|by apply Is_true_true].
Qed.

Lemma fast_path_sinks_meet (muxer : Factory) ocaps :
  existsb (fun c => intersects c ocaps) (sink_caps muxer) = true
  ↔ sinks_meet muxer ocaps.
Proof.
  unfold sinks_meet, sink_caps. rewrite existsb_exists, Exists_exists. split.
  - intros (c & Hin & Hc). apply list_elem_of_In, list_elem_of_fmap in Hin as (x & -> & Hx).
    apply list_elem_of_In, filter_In in Hx as [Hx Hd].
    exists x. split; [by apply list_elem_of_In|].
    split; [by apply bool_decide_eq_true in Hd|by apply Is_true_true].
  - intros (x & Hin & Hd & Hi). exists (get_caps x). split; [|by apply Is_true_true].
    apply list_elem_of_In, list_elem_of_fmap. exists x. split; [done|].
    apply list_elem_of_In, filter_In. split; [by apply list_elem_of_In|].
    by apply bool_decide_eq_true.
Qed.

(** With the muxer's own sink capability sets as the cache,
    [my_can_sink_caps] is the test of the muxer's sink templates, whether the
    cache is empty (slow path) or not (fast path). *)
Lemma my_can_sink_caps_sinks (muxer : Factory) ocaps :
  my_can_sink_caps intersects muxer ocaps (sink_caps muxer) = true
  ↔ sinks_meet muxer ocaps.
Proof.
  unfold my_can_sink_caps.
  destruct (sink_caps muxer) as [|c cs] eqn:Hs.
  - apply slow_path_sinks_meet.
  - rewrite <- Hs. apply fast_path_sinks_meet.
Qed.

Lemma some_src_template_fits_compatible (muxer : Factory) tpls :
  some_src_template_fits intersects muxer (sink_caps muxer) tpls = true
  ↔ Exists (fun tpl => direction tpl = SRC ∧ sinks_meet muxer (get_caps tpl)) tpls.
Proof.
  induction tpls as [|tpl rest IH]; simpl.
  - split; [done|]. by intros ?%Exists_nil.
  - rewrite Exists_cons. case_bool_decide as Hd.
    + destruct (my_can_sink_caps _ _ _ _) eqn:Hc.
      * split; [|done]. intros _. left. split; [done|]. by apply my_can_sink_caps_sinks.
      * rewrite IH. split; [by right|]. intros [[_ Hs]|Hr]; [|done].
        apply my_can_sink_caps_sinks in Hs. congruence.
    + rewrite IH. split; [by right|]. by intros [[? _]|?].
Qed.

Lemma encoder_fits_compatible (muxer encoder : Factory) :
  some_src_template_fits intersects muxer (sink_caps muxer)
    (get_static_pad_templates encoder) = true
  ↔ compat muxer encoder.
Proof. apply some_src_template_fits_compatible. Qed.

Lemma compatible_loop_filter (muxer : Factory) encoders :
  compatible_loop intersects muxer (sink_caps muxer) encoders
  = filter (compat muxer) encoders.
Proof.
  induction encoders as [|e rest IH]; simpl; [done|].
  destruct (some_src_template_fits _ _ _ _) eqn:Hf.
  - apply encoder_fits_compatible in Hf. by rewrite filter_cons_True, IH.
  - rewrite filter_cons_False, IH; [done|].
    intros Hc%encoder_fits_compatible. congruence.
Qed.

(** The default call, without a capability cache, filters by compatibility. *)
Lemma encoders_muxer_compatible_filter encoders (muxer : Factory) :
  encoders_muxer_compatible intersects encoders muxer []
  = filter (compat muxer) encoders.
Proof. apply compatible_loop_filter. Qed.

(** C3. Called on a list of encoders and a muxer, [encoders_muxer_compatible]
    returns exactly the encoders with a source capability set that meets one
    of the muxer's sink capability sets, in the order of the input list; the
    result is empty when no encoder qualifies and non-empty when one does. *)
Theorem encoders_muxer_compatible_exact encoders (muxer : Factory) :
  let res := encoders_muxer_compatible intersects encoders muxer [] in
  res = filter (compat muxer) encoders
  ∧ res `sublist_of` encoders
  ∧ (∀ e, e ∈ res ↔ e ∈ encoders ∧ compat muxer e)
  ∧ ((∀ e, e ∈ encoders → ¬ compat muxer e) → res = [])
  ∧ ((∃ e, e ∈ encoders ∧ compat muxer e) → res ≠ []).
Proof.
  simpl. rewrite encoders_muxer_compatible_filter.
  split; [done|]. split; [apply sublist_filter|].
  split; [|split].
  - intros e. rewrite list_elem_of_filter. tauto.
  - intros Hnone. induction encoders as [|e rest IH]; [done|].
    rewrite filter_cons_False.
    + apply IH. intros e' He'. apply Hnone. by right.
    + apply Hnone. by left.
  - intros (e & Hin & Hc) Hnil.
    by eapply filter_nil_not_elem_of.
Qed.

Lemma truthy_compatible encoders (muxer : Factory) :
  truthy (encoders_muxer_compatible intersects encoders muxer []) = true
  ↔ ∃ e, e ∈ encoders ∧ compat muxer e.
Proof.
  rewrite encoders_muxer_compatible_filter. split.
  - destruct (filter _ _) as [|e l] eqn:Hf; [done|]. intros _.
    assert (e ∈ filter (compat muxer) encoders) as Hin by (rewrite Hf; by left).
    apply list_elem_of_filter in Hin as [? ?]. by exists e.
  - intros (e & Hin & Hc).
    destruct (filter _ _) as [|e' l] eqn:Hf; [|done].
    by destruct (filter_nil_not_elem_of _ _ _ Hf Hc).
Qed.

Lemma has_both_compatible aencoders vencoders (muxer : Factory) :
  has_both intersects aencoders vencoders muxer = true
  ↔ (∃ a, a ∈ aencoders ∧ compat muxer a) ∧ (∃ v, v ∈ vencoders ∧ compat muxer v).
Proof. unfold has_both. by rewrite andb_true_iff, !truthy_compatible. Qed.

Section Loop.
Variables aencoders vencoders : list Factory.

Local Abbreviation body := (combination_body intersects aencoders vencoders).
Local Abbreviation both := (has_both intersects aencoders vencoders).

Lemma body_unfold acc muxer :
  body acc muxer =
    if both muxer then
      {| containers := containers acc ++ [muxer];
         audio := <[get_name muxer := encoders_muxer_compatible intersects aencoders muxer []]>
                    (audio acc);
         video := <[get_name muxer := encoders_muxer_compatible intersects vencoders muxer []]>
                    (video acc) |}
    else acc.
Proof. reflexivity. Qed.

Lemma foldl_containers muxers acc :
  containers (foldl body acc muxers) = containers acc ++ List.filter both muxers.
Proof.
  revert acc. induction muxers as [|m ms IH]; intros acc; simpl.
  - by rewrite app_nil_r.
  - rewrite IH, body_unfold. destruct (both m); simpl; [|done].
    by rewrite <- app_assoc.
Qed.

Lemma foldl_audio_dom muxers acc :
  dom (audio (foldl body acc muxers))
  = dom (audio acc) ∪ list_to_set (get_name <$> List.filter both muxers).
Proof.
  revert acc. induction muxers as [|m ms IH]; intros acc; simpl.
  - set_solver.
  - rewrite IH, body_unfold. destruct (both m); simpl; [|done].
    rewrite dom_insert_L. set_solver.
Qed.

Lemma foldl_video_dom muxers acc :
  dom (video (foldl body acc muxers))
  = dom (video acc) ∪ list_to_set (get_name <$> List.filter both muxers).
Proof.
  revert acc. induction muxers as [|m ms IH]; intros acc; simpl.
  - set_solver.
  - rewrite IH, body_unfold. destruct (both m); simpl; [|done].
    rewrite dom_insert_L. set_solver.
Qed.
End Loop.

(** Distinct members of a list with distinct names have distinct names. *)
Lemma unique_names (muxers : list Factory) m m' :
  NoDup (get_name <$> muxers) → m ∈ muxers → m' ∈ muxers →
  get_name m = get_name m' → m = m'.
Proof.
  induction muxers as [|x l IH]; simpl; [by intros _ ?%elem_of_nil|].
  intros [Hx Hl]%NoDup_cons [->|Hm]%elem_of_cons [->|Hm']%elem_of_cons Heq; [done| | |by apply IH].
  - destruct Hx. rewrite Heq. by apply list_elem_of_fmap_2.
  - destruct Hx. rewrite <- Heq. by apply list_elem_of_fmap_2.
Qed.

(** The three lists [available_combinations] works on come from one
    classification of the registry. *)
Lemma available_combinations_unfold registry (cache : CachedEncoderList Caps) :
  available_combinations intersects registry cache
  = foldl (combination_body intersects
             (available_audio_encoders registry cache).1
             (available_video_encoders registry cache).1)
          (mkCombinations [] ∅ ∅)
          (available_muxers registry cache).1.
Proof. reflexivity. Qed.

(** C2. Whatever the registry holds, every muxer that
    [available_combinations] returns is an available muxer with a compatible
    audio encoder and a compatible video encoder; the keys of both maps are
    names of returned muxers; and an available muxer lacking either kind is
    not in the returned list, nor, names being unique in a registry, a key
    of either map. *)
Theorem available_combinations_both_kinds registry (cache : CachedEncoderList Caps) :
  let aencoders := (available_audio_encoders registry cache).1 in
  let vencoders := (available_video_encoders registry cache).1 in
  let muxers := (available_muxers registry cache).1 in
  let r := available_combinations intersects registry cache in
  (∀ m, m ∈ containers r →
     m ∈ muxers
     ∧ (∃ a, a ∈ aencoders ∧ compat m a)
     ∧ (∃ v, v ∈ vencoders ∧ compat m v))
  ∧ (∀ k, k ∈ dom (audio r) ∨ k ∈ dom (video r) →
       ∃ m, m ∈ containers r ∧ get_name m = k)
  ∧ (∀ m, m ∈ muxers →
       ¬ (∃ a, a ∈ aencoders ∧ compat m a) ∨ ¬ (∃ v, v ∈ vencoders ∧ compat m v) →
       (m ∉ containers r)
       ∧ (NoDup (get_name <$> muxers) →
          audio r !! get_name m = None ∧ video r !! get_name m = None)).
Proof.
  intros aencoders vencoders muxers r.
  assert (containers r = List.filter (has_both intersects aencoders vencoders) muxers) as Hc.
  { unfold r. by rewrite available_combinations_unfold, foldl_containers. }
  assert (dom (audio r) = list_to_set (get_name <$> containers r)) as Ha.
  { rewrite Hc. unfold r. rewrite available_combinations_unfold, foldl_audio_dom. simpl.
    rewrite dom_empty_L. set_solver. }
  assert (dom (video r) = list_to_set (get_name <$> containers r)) as Hv.
  { rewrite Hc. unfold r. rewrite available_combinations_unfold, foldl_video_dom. simpl.
    rewrite dom_empty_L. set_solver. }
  assert (∀ m, m ∈ containers r ↔
               m ∈ muxers ∧ has_both intersects aencoders vencoders m = true) as Hin.
  { intros m. by rewrite Hc, list_elem_of_In, filter_In, <- list_elem_of_In. }
  split; [|split].
  - intros m [Hm Hb]%Hin. apply has_both_compatible in Hb. tauto.
  - intros k Hk. rewrite Ha, Hv in Hk.
    assert (k ∈ get_name <$> containers r) as Hk'.
    { destruct Hk as [Hk|Hk]; by apply elem_of_list_to_set in Hk. }
    apply list_elem_of_fmap in Hk' as (m & -> & Hm). by exists m.
  - intros m Hm Hlack.
    assert (has_both intersects aencoders vencoders m ≠ true) as Hnb.
    { intros Hb%has_both_compatible. tauto. }
    split; [intros [_ ?]%Hin; done|].
    intros Hnd.
    assert (get_name m ∉ get_name <$> containers r) as Hname.
    { intros (m' & Heq & [Hm' Hb']%Hin)%list_elem_of_fmap.
      apply Hnb. by rewrite (unique_names muxers m m' Hnd Hm Hm' Heq). }
    split; apply not_elem_of_dom; rewrite ?Ha, ?Hv; by rewrite elem_of_list_to_set.
Qed.

End Caps.

(** On the sample registry the WAV muxer, which takes no video, is left out
    of the list and of both maps. *)
Lemma available_combinations_both_kinds_witness :
  let r := available_combinations String.eqb sample_registry None in
  (wavenc ∉ containers r)
  ∧ audio r !! "wavenc" = None ∧ video r !! "wavenc" = None.
Proof.
  destruct (available_combinations_both_kinds String.eqb sample_registry None)
    as (_ & _ & H).
  destruct (H wavenc) as [Hc Hmaps].
  - vm_compute. right. left.
  - right. intros (v & Hin & Hv). vm_compute in Hin.
    apply list_elem_of_singleton in Hin as ->.
    apply (bool_decide_eq_false_1 (compatible String.eqb wavenc theoraenc));
      [vm_compute; reflexivity|exact Hv].
  - split; [exact Hc|]. apply Hmaps.
    apply (bool_decide_unpack _). vm_compute. exact I.
Defined.

(** The specification's example: an encoder producing raw audio and a muxer
    taking raw audio. *)
Lemma encoders_muxer_compatible_exact_witness :
  encoders_muxer_compatible String.eqb [theoraenc; alawenc; vorbisenc] wavenc [] ≠ [].
Proof.
  destruct (encoders_muxer_compatible_exact String.eqb [theoraenc; alawenc; vorbisenc] wavenc)
    as (_ & _ & _ & _ & H).
  apply H. exists alawenc. split.
  - right. left.
  - apply (bool_decide_unpack _). vm_compute. exact I.
Defined.

End ResolverFacts.

(** ** Display names *)

Module BeautifyFacts.
Import Beautify.

Lemma pieces_space_free (s : string) : Forall (fun w => space_free w = true) (pieces s).
Proof.
  induction s as [|c s IH]; simpl.
  - by repeat constructor.
  - destruct (is_space c) eqn:Hc.
    + by constructor.
    + destruct (pieces s) as [|w ws]; simpl.
      * repeat constructor. simpl. by rewrite Hc.
      * apply Forall_cons in IH as [Hw Hws]. constructor; [|done].
        simpl. by rewrite Hc.
Qed.

Lemma split_words (s : string) : Forall word (split s).
Proof.
  unfold split. apply Forall_forall. intros w Hin.
  apply list_elem_of_In, filter_In in Hin as [Hin Hne]. split; [done|].
  pose proof (pieces_space_free s) as H.
  rewrite Forall_forall in H. by apply H, list_elem_of_In.
Qed.

Lemma pieces_word (w : string) : space_free w = true → pieces w = [w].
Proof.
  induction w as [|c w IH]; simpl; [done|].
  intros [Hc Hw]%andb_true_iff. apply negb_true_iff in Hc. rewrite Hc.
  by rewrite (IH Hw).
Qed.

Lemma pieces_word_space (w s : string) :
  space_free w = true →
  pieces (String.append w (String " " s)) = w :: pieces s.
Proof.
  induction w as [|c w IH]; simpl; [done|].
  intros [Hc Hw]%andb_true_iff. apply negb_true_iff in Hc. rewrite Hc.
  by rewrite (IH Hw).
Qed.

(** Splitting a single-spaced line of words gives the words back. *)
Lemma split_join (ws : list string) : Forall word ws → split (join " " ws) = ws.
Proof.
  induction ws as [|w ws IH]; [done|].
  intros [[Hne Hsf] Hws]%Forall_cons.
  destruct ws as [|w2 ws].
  - simpl. unfold split. rewrite (pieces_word w Hsf). simpl. by rewrite Hne.
  - change (join " " (w :: w2 :: ws))
      with (String.append w (String " " (join " " (w2 :: ws)))).
    unfold split. rewrite (pieces_word_space _ _ Hsf). simpl. rewrite Hne.
    f_equal. by apply IH.
Qed.

(** C8, as amended. [beautify_factoryname] is a function of the long name
    alone: the fixed removals, then the fixed replacements, then the words of
    the outcome joined by single spaces. Its result is already collapsed
    (splitting and joining it again changes nothing). The order matters: on
    "Microformatsoft" the removal of "format" is what lets the replacement of
    "Microsoft" apply. On "H.264 / AVC Encoder (Muxer)" the tokens "Encoder"
    and "Muxer" go and the result is "H.264 / AVC ()": the parentheses stay. *)
Theorem beautify_factoryname_collapsed :
  (∀ longname,
     beautify_factoryname longname
     = join " " (split (replace_words words_to_replace
                          (remove_words words_to_remove longname))))
  ∧ (∀ longname,
       Forall word (split (beautify_factoryname longname))
       ∧ join " " (split (beautify_factoryname longname)) = beautify_factoryname longname)
  ∧ (beautify_factoryname "Microformatsoft" = "MS"
     ∧ replacements_first "Microformatsoft" = "Microsoft")
  ∧ beautify_factoryname "H.264 / AVC Encoder (Muxer)" = "H.264 / AVC ()".
Proof.
  split; [done|]. split; [|split; [split|]]; try reflexivity.
  intros longname. unfold beautify_factoryname.
  rewrite split_join by apply split_words.
  split; [apply split_words|done].
Qed.

(** C8, as stated, fails on its own example: the result is not "H.264 / AVC". *)
Lemma beautify_keeps_parentheses :
  beautify_factoryname "H.264 / AVC Encoder (Muxer)" ≠ "H.264 / AVC".
Proof. vm_compute. discriminate. Qed.

End BeautifyFacts.

(** ** Codec settings on new elements *)

Module RenderDialogFacts.
Import RenderDialog.

Section Element.
Context {Value Factory : Type} `{EqDecision Factory}.

Local Abbreviation Element := (RenderDialog.Element Value Factory).

Local Abbreviation set_from source :=
  (fun (element : Element) (setting : string) =>
     rbind (getitem source setting) (fun v => Ok (set_property setting v element))).

(** The loop over the names succeeds when [source] has every name, and then
    each name carries the value [source] gives it. *)
Lemma settings_loop_ok (source : gmap string Value) (names : list string) (element : Element) :
  (∀ k, k ∈ names → is_Some (source !! k)) →
  ∃ element', rfold (set_from source) element names = Ok element'
    ∧ get_factory element' = get_factory element
    ∧ ∀ k, properties element' !! k =
           if decide (k ∈ names) then source !! k else properties element !! k.
Proof.
  revert element. induction names as [|n names IH]; intros element Hall; simpl.
  - exists element. split; [done|]. split; [done|]. intros k.
    destruct (decide (k ∈ [])) as [Hk|]; [by apply elem_of_nil in Hk|done].
  - destruct (Hall n) as [v Hv]; [by left|].
    unfold getitem at 1. rewrite Hv. simpl.
    destruct (IH (set_property n v element)) as (e' & Hrun & Hf & Hp).
    { intros k Hk. apply Hall. by right. }
    exists e'. split; [done|]. split; [done|]. intros k. rewrite Hp.
    destruct (decide (k ∈ names)) as [Hk|Hk].
    + rewrite decide_True by (by right). done.
    + simpl. destruct (decide (k = n)) as [->|Hne].
      * rewrite decide_True by (by left). by rewrite lookup_insert_eq.
      * rewrite decide_False by (by intros [?|?]%elem_of_cons).
        by rewrite lookup_insert_ne.
Qed.

(** The loop raises [KeyError] at the first name [source] lacks. *)
Lemma settings_loop_raises (source : gmap string Value) (names : list string) (element : Element) :
  (∃ k, k ∈ names ∧ source !! k = None) →
  ∃ k, k ∈ names ∧ source !! k = None
       ∧ rfold (set_from source) element names = Raise (KeyError k).
Proof.
  revert element. induction names as [|n names IH]; intros element (k & Hk & Hnone).
  - by apply elem_of_nil in Hk.
  - simpl. unfold getitem at 1. destruct (source !! n) as [v|] eqn:Hn; simpl.
    + destruct (IH (set_property n v element)) as (k' & Hk' & Hnone' & Hrun).
      { exists k. split; [|done]. apply elem_of_cons in Hk as [->|]; [congruence|done]. }
      exists k'. split; [by right|done].
    + exists n. split; [by left|done].
Qed.

Lemma map_keys_dom (names : gmap string Value) (k : string) :
  k ∈ (map_to_list names).*1 ↔ k ∈ dom names.
Proof.
  rewrite elem_of_dom, list_elem_of_fmap. split.
  - intros ([k' v] & -> & Hin). apply elem_of_map_to_list in Hin. by exists v.
  - intros [v Hv]. exists (k, v). split; [done|]. by apply elem_of_map_to_list.
Qed.

Lemma apply_settings_ok (names source : gmap string Value) (element : Element) :
  dom names ⊆ dom source →
  ∃ element', apply_settings names source element = Ok element'
    ∧ get_factory element' = get_factory element
    ∧ ∀ k, properties element' !! k =
           if decide (k ∈ dom names) then source !! k else properties element !! k.
Proof.
  intros Hsub. unfold apply_settings.
  destruct (settings_loop_ok source (map_to_list names).*1 element)
    as (e' & Hrun & Hf & Hp).
  { intros k Hk%map_keys_dom. apply elem_of_dom. by apply Hsub. }
  exists e'. split; [done|]. split; [done|]. intros k. rewrite Hp.
  destruct (decide (k ∈ dom names)) as [Hk|Hk].
  - rewrite decide_True by (by apply map_keys_dom). done.
  - rewrite decide_False by (by rewrite map_keys_dom). done.
Qed.

(** A name of the audio map that the video map lacks stops the callback. *)
Lemma _elementAddedCb_KeyError venc aenc settings (element : Element) :
  get_factory element = aenc → aenc ≠ venc →
  ¬ dom (acodecsettings settings) ⊆ dom (vcodecsettings settings) →
  ∃ k, k ∈ dom (acodecsettings settings) ∧ vcodecsettings settings !! k = None
       ∧ _elementAddedCb venc aenc settings element = Raise (KeyError k).
Proof.
  intros Ha Hne Hsub. unfold _elementAddedCb.
  rewrite decide_False by congruence. rewrite decide_True by done.
  unfold apply_settings.
  destruct (settings_loop_raises (vcodecsettings settings)
              (map_to_list (acodecsettings settings)).*1 element)
    as (k & Hk & Hnone & Hrun).
  - apply (not_set_Forall_Exists (fun k => k ∈ dom (vcodecsettings settings))) in Hsub.
    destruct Hsub as (k & Hk & Hnk). simpl in Hnk.
    exists k. split; [by apply map_keys_dom|by apply not_elem_of_dom].
  - exists k. split; [by apply map_keys_dom|done].
Qed.

(** C10, as amended. When every name of the audio codec settings is also a
    name of the video codec settings, an element of the selected audio
    encoder factory (which is not the selected video encoder factory) gets,
    for each name in the audio codec settings, the value the video codec
    settings hold under that name; no value of the audio map reaches it. An
    element of the selected video encoder factory gets the video codec
    settings. *)
Theorem _elementAddedCb_audio_from_video venc aenc settings (element : Element) :
  (get_factory element = aenc → aenc ≠ venc →
   dom (acodecsettings settings) ⊆ dom (vcodecsettings settings) →
   ∃ element', _elementAddedCb venc aenc settings element = Ok element'
     ∧ get_factory element' = get_factory element
     ∧ ∀ k, properties element' !! k =
            if decide (k ∈ dom (acodecsettings settings))
            then vcodecsettings settings !! k
            else properties element !! k)
  ∧ (get_factory element = venc →
     ∃ element', _elementAddedCb venc aenc settings element = Ok element'
       ∧ get_factory element' = get_factory element
       ∧ ∀ k, properties element' !! k =
              if decide (k ∈ dom (vcodecsettings settings))
              then vcodecsettings settings !! k
              else properties element !! k).
Proof.
  split.
  - intros Ha Hne Hsub. unfold _elementAddedCb.
    rewrite decide_False by congruence. rewrite decide_True by done.
    by apply apply_settings_ok.
  - intros Hv. unfold _elementAddedCb. rewrite decide_True by done.
    by apply apply_settings_ok.
Qed.

End Element.

(** With "bitrate" at 2000 for video and 128 for audio, a new Vorbis encoder
    is given 2000. *)
Lemma _elementAddedCb_audio_from_video_witness :
  ∃ element',
    _elementAddedCb "x264enc" "vorbisenc" sample_settings new_vorbisenc = Ok element'
    ∧ properties element' !! "bitrate" = Some 2000.
Proof.
  destruct (_elementAddedCb_audio_from_video "x264enc" "vorbisenc"
              sample_settings new_vorbisenc) as [H _].
  destruct H as (e' & Hrun & _ & Hp).
  - reflexivity.
  - discriminate.
  - simpl. rewrite !dom_singleton_L. reflexivity.
  - exists e'. split; [exact Hrun|]. rewrite Hp. simpl.
    rewrite dom_singleton_L. rewrite decide_True by (by apply elem_of_singleton).
    apply lookup_singleton_eq.
Defined.

(** C10, as stated, fails: with "quality" in the audio codec settings and
    only "bitrate" in the video codec settings, the lookup of "quality" in
    the video map raises [KeyError] and nothing is set on the new Vorbis
    encoder. *)
Lemma _elementAddedCb_audio_name_missing :
  get_factory new_vorbisenc = "vorbisenc"
  ∧ acodecsettings mismatched_settings !! "quality" = Some 3
  ∧ vcodecsettings mismatched_settings !! "quality" = None
  ∧ _elementAddedCb "x264enc" "vorbisenc" mismatched_settings new_vorbisenc
    = Raise (KeyError "quality")
  ∧ ¬ audio_names_set_from_video "x264enc" "vorbisenc" mismatched_settings new_vorbisenc.
Proof.
  assert (_elementAddedCb "x264enc" "vorbisenc" mismatched_settings new_vorbisenc
          = Raise (KeyError "quality")) as Hrun.
  { unfold _elementAddedCb, apply_settings. simpl.
    rewrite map_to_list_singleton. reflexivity. }
  split; [reflexivity|]. split; [apply lookup_singleton_eq|].
  split; [by apply lookup_singleton_ne|]. split; [exact Hrun|].
  intros (element' & Hok & _). rewrite Hrun in Hok. discriminate.
Qed.

End RenderDialogFacts.

(** ** The timeline viewport *)

Module ViewportFacts.
Import Viewport.

(** Membership in a concrete list, by evaluation. *)
Ltac list_mem :=
  apply list_elem_of_In; vm_compute; repeat (first [left; reflexivity | right]).

(** *** Snapping indicator *)

(** C9. A snapping-started notification at position 0 leaves exactly the
    state a snapping-ended notification leaves; snapping-ended hides the
    indicator whatever the state; and on a bound viewport a snapping-started
    notification at a non-zero position shows the indicator at the pixel
    offset of that position. *)
Theorem _snapCb_indicator (nsToPixel : Z -> Z -> Z) (EXPANDED_SIZE SPACING : Z)
    (m : Model) (ui : UI) (position : Z) :
  _snapCb nsToPixel EXPANDED_SIZE SPACING m ui 0 = Ok (_snapEndedCb ui)
  ∧ ind_visible (_snap_indicator (stage (_snapEndedCb ui))) = false
  ∧ (position ≠ 0 → is_Some (bTimeline (stage ui)) →
     ∃ ui', _snapCb nsToPixel EXPANDED_SIZE SPACING m ui position = Ok ui'
       ∧ ind_visible (_snap_indicator (stage ui')) = true
       ∧ ind_x (_snap_indicator (stage ui')) = nsToPixel (zoom_level ui) position).
Proof.
  split; [done|]. split; [done|].
  intros Hpos [t Ht]. unfold _snapCb, nbrLayers.
  rewrite decide_False by done. rewrite Ht. simpl. eauto.
Qed.

Lemma _snapCb_indicator_witness :
  ∃ ui', _snapCb sample_nsToPixel sample_EXPANDED_SIZE sample_SPACING
           sample_model bound_ui (3 * SECOND) = Ok ui'
    ∧ ind_visible (_snap_indicator (stage ui')) = true
    ∧ ind_x (_snap_indicator (stage ui')) = 18.
Proof.
  destruct (_snapCb_indicator sample_nsToPixel sample_EXPANDED_SIZE sample_SPACING
              sample_model bound_ui (3 * SECOND)) as (_ & _ & H).
  apply H.
  - discriminate.
  - by eexists.
Defined.

(** *** Scroll region *)

(** On a viewport whose container is bound to [t],
    [updateHScrollAdjustments] returns and leaves the stage, the connections
    and the zoom level alone; the upper bound it sets is the pixel width of
    the duration plus 500, the two measured widths being 0 in the code. *)
Lemma updateHScrollAdjustments_upper (nsToPixel : Z -> Z -> Z) (m : Model) (ui : UI)
    (t : nat) :
  c_bTimeline (container ui) = Some t →
  ∃ ui', updateHScrollAdjustments nsToPixel m ui = Ok ui'
    ∧ zoom_level ui' = zoom_level ui
    ∧ stage ui' = stage ui
    ∧ c_bTimeline (container ui') = Some t
    ∧ upper (hadj (container ui'))
      = nsToPixel (zoom_level ui) (get_duration (timeline_at m t)) + 500.
Proof.
  intros Hc. unfold updateHScrollAdjustments. rewrite Hc. simpl.
  eexists. split; [done|]. split; [done|]. split; [done|].
  unfold controls_width, scrollbar_width, end_padding.
  case_bool_decide; simpl; (split; [done|lia]).
Qed.

Lemma _updateSize_upper (nsToPixel : Z -> Z -> Z) (m : Model) (ui : UI) (t : nat) :
  bTimeline (stage ui) = Some t →
  c_bTimeline (container ui) = Some t →
  ∃ ui', _updateSize nsToPixel m ui = Ok ui'
    ∧ zoom_level ui' = zoom_level ui
    ∧ bTimeline (stage ui') = Some t
    ∧ upper (hadj (container ui'))
      = nsToPixel (zoom_level ui) (get_duration (timeline_at m t)) + 500.
Proof.
  intros Hs Hc. unfold _updateSize. rewrite Hs. simpl.
  set (ui0 := with_stage _ ui).
  destruct (updateHScrollAdjustments_upper nsToPixel m ui0 t Hc)
    as (ui' & Hrun & Hz & Hst & _ & Hup).
  exists ui'. split; [done|]. split; [done|]. split; [|done].
  rewrite Hst. done.
Qed.

(** Adding a proxy on a bound stage returns and touches neither the
    container nor the zoom level. *)
Lemma _addTimelineElement_keeps_container (nsToPixel : Z -> Z -> Z)
    (EXPANDED_SIZE SPACING : Z) (m : Model) (ui : UI) (t track b : nat) :
  bTimeline (stage ui) = Some t →
  ∃ ui', _addTimelineElement nsToPixel EXPANDED_SIZE SPACING m ui track b = Ok ui'
    ∧ container ui' = container ui
    ∧ zoom_level ui' = zoom_level ui.
Proof.
  intros Hs. unfold _addTimelineElement.
  set (el := if in_transition_clip _ then _ else _).
  set (ui4 := connect _ _ _ (connect _ _ _ (connect _ _ _ (connect _ _ _ ui)))).
  assert (bTimeline (stage ui4) = Some t) as Hs4 by done.
  unfold _setElementY, nbrLayers. rewrite Hs4. simpl.
  destruct (decide _); simpl; eexists; (split; [done|]); done.
Qed.

(** C7, as amended. On a viewport bound to a timeline, each handler that
    recomputes the scroll region returns and leaves the upper bound of the
    horizontal adjustment at the pixel width of the timeline's duration at the
    current zoom level plus the end padding of 500, with no width for the
    control panel: the zoom change handlers of the stage and of the
    container, and the handlers run when a track element is added and when
    an element's start or duration changes. *)
Theorem scrollable_width (nsToPixel : Z -> Z -> Z) (EXPANDED_SIZE SPACING : Z)
    (m : Model) (ui : UI) (t track b : nat) :
  bTimeline (stage ui) = Some t →
  c_bTimeline (container ui) = Some t →
  let recomputed (r : Result UI) :=
    ∃ ui', r = Ok ui'
      ∧ zoom_level ui' = zoom_level ui
      ∧ upper (hadj (container ui'))
        = nsToPixel (zoom_level ui) (get_duration (timeline_at m t)) + 500 in
  recomputed (zoomChanged nsToPixel m ui)
  ∧ recomputed (container_zoomChanged nsToPixel m ui)
  ∧ recomputed (_trackElementAddedCb_ nsToPixel EXPANDED_SIZE SPACING m ui track b)
  ∧ recomputed (_elementStartChangedCb_ nsToPixel m ui b)
  ∧ recomputed (_elementDurationChangedCb_ nsToPixel m ui b).
Proof.
  intros Hs Hc recomputed.
  destruct (_updateSize_upper nsToPixel m ui t Hs Hc) as (ui1 & Hrun & Hz & Hs1 & Hup).
  repeat split.
  - exists (with_stage
              (with_playhead_x (nsToPixel (zoom_level ui1) (lastPosition (stage ui1)))
                 (with_elements (_setElementX nsToPixel m ui1 <$> elements (stage ui1))
                    (stage ui1))) ui1).
    split; [|done]. unfold zoomChanged, _redraw. rewrite Hrun. done.
  - destruct (updateHScrollAdjustments_upper nsToPixel m ui t Hc)
      as (ui' & Hrun' & Hz' & _ & _ & Hup').
    exists ui'. done.
  - unfold _trackElementAddedCb_. rewrite Hrun. simpl.
    destruct (_addTimelineElement_keeps_container nsToPixel EXPANDED_SIZE SPACING
                m ui1 t track b Hs1) as (ui' & Hadd & Hcont & Hz').
    exists ui'. split; [done|]. rewrite Hcont, Hz'. done.
  - unfold _elementStartChangedCb_. rewrite Hrun. simpl.
    eexists. split; [done|]. done.
  - exists ui1. done.
Qed.

(** Five seconds at six pixels per second: 30 + 500. *)
Lemma scrollable_width_witness :
  ∃ ui', zoomChanged sample_nsToPixel sample_model bound_ui = Ok ui'
    ∧ zoom_level ui' = 5
    ∧ upper (hadj (container ui')) = 30 + 500.
Proof.
  destruct (scrollable_width sample_nsToPixel sample_EXPANDED_SIZE sample_SPACING
              sample_model bound_ui 1 10 7) as [H _].
  - reflexivity.
  - reflexivity.
  - exact H.
Defined.

(** C7, as stated, fails. After a zoom change on the bound sample window the
    upper bound is 530, the 30 pixels of the five seconds plus the padding,
    and not the 780 that adding the width of the control panel gives. And a
    change of duration does not always recompute it: when element 7 is
    reported removed and the timeline has shrunk to 2 s, 12 pixels, the upper
    bound is still the 530 it was. *)
Lemma scroll_region_without_controls :
  (∃ ui', zoomChanged sample_nsToPixel sample_model bound_ui = Ok ui'
     ∧ sample_nsToPixel (zoom_level ui') (get_duration (timeline_at sample_model 1)) = 30
     ∧ upper (hadj (container ui')) = 530
     ∧ ¬ width_with_controls sample_nsToPixel sample_model 1 ui')
  ∧ (∀ strict : bool, ∃ ui1 ui2,
       _trackElementAddedCb_ sample_nsToPixel sample_EXPANDED_SIZE sample_SPACING
         sample_model bound_ui 10 7 = Ok ui1
       ∧ upper (hadj (container ui1)) = 530
       ∧ _trackElementRemovedCb_ strict shrunk_model ui1 10 7 = Ok ui2
       ∧ sample_nsToPixel (zoom_level ui2) (get_duration (timeline_at shrunk_model 1)) = 12
       ∧ upper (hadj (container ui2)) = 530).
Proof.
  split.
  - eexists. split; [vm_compute; reflexivity|].
    split; [reflexivity|]. split; [reflexivity|].
    unfold width_with_controls. vm_compute. discriminate.
  - intros strict. eexists. eexists.
    split; [vm_compute; reflexivity|]. split; [reflexivity|].
    split; [destruct strict; vm_compute; reflexivity|].
    split; reflexivity.
Qed.

(** *** Rebinding *)

Section Connections.
Variable nsToPixel : Z -> Z -> Z.
Variables EXPANDED_SIZE SPACING : Z.
Variable strict : bool.

Local Abbreviation setTimeline := (Viewport.setTimeline nsToPixel EXPANDED_SIZE SPACING strict).
Local Abbreviation _add_layer := (Viewport._add_layer EXPANDED_SIZE SPACING).
Local Abbreviation disconnect_by_func := (Viewport.disconnect_by_func strict).

(** Split a successful [rbind] into its two steps. *)
Ltac rbind_ok H :=
  match type of H with
  | rbind ?r _ = Ok _ =>
      let a := fresh "a" in let E := fresh "E" in
      destruct r as [a|] eqn:E; simpl in H; [|discriminate H]
  end.

Lemma disconnect_by_func_keeps obj cb ui ui' c :
  disconnect_by_func obj cb ui = Ok ui' →
  c ∈ connections ui → emitter c ≠ obj → c ∈ connections ui'.
Proof.
  unfold Viewport.disconnect_by_func. intros Hrun Hin Hne.
  destruct (existsb _ _).
  - injection Hrun as <-. simpl. apply list_elem_of_In, filter_In.
    split; [by apply list_elem_of_In|]. unfold connected.
    rewrite (bool_decide_eq_false_2 (emitter c = obj)) by done. done.
  - destruct strict; [discriminate|]. by injection Hrun as <-.
Qed.

Lemma connect_keeps obj sig cb ui c :
  c ∈ connections ui → c ∈ connections (connect obj sig cb ui).
Proof. intros Hin. simpl. apply elem_of_app. by left. Qed.

Lemma _connectTrack_keeps tracks ui c :
  c ∈ connections ui → c ∈ connections (foldl _connectTrack ui tracks).
Proof.
  revert ui. induction tracks as [|tr tracks IH]; intros ui Hin; simpl; [done|].
  apply IH. unfold _connectTrack. by do 2 apply connect_keeps.
Qed.

Lemma _add_layer_connections m ui layer ui' :
  _add_layer m ui layer = Ok ui' → connections ui' = connections ui.
Proof.
  unfold Viewport._add_layer, _updatePlayHead. intros Hrun.
  rbind_ok Hrun. rbind_ok Hrun. rbind_ok Hrun. by injection Hrun as <-.
Qed.

Lemma _add_layers_connections m layers ui ui' :
  rfold (_add_layer m) ui layers = Ok ui' → connections ui' = connections ui.
Proof.
  revert ui. induction layers as [|l layers IH]; intros ui Hrun; simpl in Hrun.
  - by injection Hrun as <-.
  - rbind_ok Hrun. rewrite (IH _ Hrun). by eapply _add_layer_connections.
Qed.

Lemma zoomChanged_connections m ui ui' :
  zoomChanged nsToPixel m ui = Ok ui' → connections ui' = connections ui.
Proof.
  unfold zoomChanged, _redraw, _updateSize, updateHScrollAdjustments. intros Hrun.
  rbind_ok Hrun. rbind_ok E. rbind_ok E. injection E as <-. by injection Hrun as <-.
Qed.

(** Whatever the viewport was bound to, a rebind that succeeds leaves every
    connection made on a track in place: [setTimeline] disconnects from the
    old timeline object only, never from its tracks. *)
Lemma setTimeline_keeps_track_connections m new ui ui' c track :
  setTimeline m new ui = Ok ui' →
  c ∈ connections ui → emitter c = Track track → c ∈ connections ui'.
Proof.
  unfold Viewport.setTimeline. intros Hrun Hin Hem.
  rbind_ok Hrun. rbind_ok Hrun.
  rewrite (zoomChanged_connections _ _ _ Hrun).
  do 6 apply connect_keeps.
  rewrite (_add_layers_connections _ _ _ _ E0).
  apply _connectTrack_keeps. simpl.
  destruct (bTimeline (stage ui)) as [old|]; [|by injection E as <-].
  assert (emitter c ≠ Timeline old) as Hne by (rewrite Hem; discriminate).
  do 5 (match type of E with
        | rbind ?r _ = Ok _ =>
            let u := fresh "u" in let D := fresh "D" in
            destruct r as [u|] eqn:D; simpl in E; [|discriminate E];
            apply (disconnect_by_func_keeps _ _ _ _ _ D) in Hin; [|exact Hne]
        end).
  by eapply disconnect_by_func_keeps.
Qed.

Lemma disconnect_by_func_keeps_callback obj cb ui ui' c :
  disconnect_by_func obj cb ui = Ok ui' →
  c ∈ connections ui → callback c ≠ cb → c ∈ connections ui'.
Proof.
  unfold Viewport.disconnect_by_func. intros Hrun Hin Hne.
  destruct (existsb _ _).
  - injection Hrun as <-. simpl. apply list_elem_of_In, filter_In.
    split; [by apply list_elem_of_In|]. unfold connected.
    rewrite (bool_decide_eq_false_2 (callback c = cb)) by done.
    by rewrite andb_false_r.
  - destruct strict; [discriminate|]. by injection Hrun as <-.
Qed.

Lemma disconnect_by_func_stage obj cb ui ui' :
  disconnect_by_func obj cb ui = Ok ui' → stage ui' = stage ui.
Proof.
  unfold Viewport.disconnect_by_func. intros Hrun.
  destruct (existsb _ _); [by injection Hrun as <-|].
  destruct strict; [discriminate|]. by injection Hrun as <-.
Qed.

Lemma loop_variable_bound b els i cur j :
  loop_variable b els i cur = Some j →
  cur = Some j ∨ (i ≤ j < i + length els)%nat.
Proof.
  revert i cur. induction els as [|e els IH]; intros i cur; simpl.
  - by left.
  - destruct (decide (bElement e = b)).
    + intros [= <-]. right. lia.
    + intros [[= <-]|?]%IH; right; lia.
Qed.

(** A removal that returns has dropped one proxy, whichever element it
    named, and has left every priority listener connected. *)
Lemma _removeTimelineElement_effect m ui track b ui' :
  _removeTimelineElement strict m ui track b = Ok ui' →
  S (length (elements (stage ui'))) = length (elements (stage ui))
  ∧ ∀ c, c ∈ connections ui → callback c = _elementPriorityChangedCb →
         c ∈ connections ui'.
Proof.
  unfold _removeTimelineElement. intros Hrun.
  destruct (disconnect_by_func (Element b) _elementStartChangedCb ui) as [u1|] eqn:D1;
    simpl in Hrun; [|discriminate].
  destruct (disconnect_by_func (Element b) _elementDurationChangedCb u1) as [u2|] eqn:D2;
    simpl in Hrun; [|discriminate].
  destruct (disconnect_by_func (Element b) _elementInPointChangedCb u2) as [u3|] eqn:D3;
    simpl in Hrun; [|discriminate].
  destruct (loop_variable b (elements (stage u3)) 0 None) as [i|] eqn:Hi; [|discriminate].
  injection Hrun as <-. simpl.
  assert (stage u3 = stage ui) as Hst.
  { rewrite (disconnect_by_func_stage _ _ _ _ D3), (disconnect_by_func_stage _ _ _ _ D2).
    by apply disconnect_by_func_stage in D1. }
  split.
  - apply loop_variable_bound in Hi as [?|Hi]; [done|].
    rewrite Hst in Hi |- *. rewrite length_delete by (apply lookup_lt_is_Some_2; lia).
    lia.
  - intros c Hin Hcb.
    eapply disconnect_by_func_keeps_callback; [exact D3| |by rewrite Hcb].
    eapply disconnect_by_func_keeps_callback; [exact D2| |by rewrite Hcb].
    eapply disconnect_by_func_keeps_callback; [exact D1|done|by rewrite Hcb].
Qed.

End Connections.

(** C4 on the code. Bind a fresh viewport to timeline 1, which has track 10,
    then rebind it to timeline 2: the handler connected to track 10's
    "track-element-added" signal is still connected after the rebind. *)
Theorem rebind_leaves_track_listener (strict : bool) :
  ∃ ui1 ui2,
    container_setTimeline sample_nsToPixel sample_EXPANDED_SIZE sample_SPACING strict
      sample_model 1 fresh_ui = Ok ui1
    ∧ container_setTimeline sample_nsToPixel sample_EXPANDED_SIZE sample_SPACING strict
        sample_model 2 ui1 = Ok ui2
    ∧ bTimeline (stage ui2) = Some 2%nat
    ∧ mkConnection (Track 10) "track-element-added" _trackElementAddedCb ∈ connections ui2
    ∧ on_timeline sample_model 1
        (mkConnection (Track 10) "track-element-added" _trackElementAddedCb).
Proof.
  eexists. eexists.
  split; [vm_compute; reflexivity|].
  split; [vm_compute; reflexivity|].
  split; [reflexivity|].
  split; [list_mem|].
  right. left. exists 10%nat. split; [|done]. list_mem.
Qed.

(** C5 on the code. Element 7 is added to the bound viewport and then
    reported removed: its proxy goes, its priority listener stays connected.
    A removal naming element 8, which has no proxy, either raises or drops
    the proxy of element 7; with nothing displayed it raises. *)
Theorem removal_leaves_priority_listener (strict : bool) :
  ∃ ui1 ui2 ui3,
    container_setTimeline sample_nsToPixel sample_EXPANDED_SIZE sample_SPACING strict
      sample_model 1 fresh_ui = Ok ui1
    ∧ _trackElementAddedCb_ sample_nsToPixel sample_EXPANDED_SIZE sample_SPACING
        sample_model ui1 10 7 = Ok ui2
    ∧ displayed 7 ui2
    ∧ _trackElementRemovedCb_ strict sample_model ui2 10 7 = Ok ui3
    ∧ elements (stage ui3) = []
    ∧ mkConnection (Element 7) "notify::priority" _elementPriorityChangedCb ∈ connections ui3
    ∧ ¬ displayed 8 ui2
    ∧ match _trackElementRemovedCb_ strict sample_model ui2 10 8 with
      | Raise e => e = TypeError
      | Ok ui' => elements (stage ui') = []
      end
    ∧ match _trackElementRemovedCb_ strict sample_model ui1 10 8 with
      | Raise e => e = TypeError ∨ e = NameError
      | Ok ui' => False
      end.
Proof.
  eexists. eexists. eexists.
  split; [vm_compute; reflexivity|].
  split; [vm_compute; reflexivity|].
  split.
  { eexists. split; [list_mem|reflexivity]. }
  split; [vm_compute; reflexivity|].
  split; [reflexivity|].
  split; [list_mem|].
  split.
  { intros (p & Hin & Hb). vm_compute in Hin.
    apply list_elem_of_singleton in Hin as ->. discriminate. }
  split; destruct strict; vm_compute; auto.
Qed.

(** *** Best-fit zoom *)

Lemma whole_seconds_pos (duration : Z) : 0 < duration → 0 < whole_seconds duration.
Proof.
  intros Hd. unfold whole_seconds, SECOND.
  apply Z.div_str_pos. lia.
Qed.

(** Comparing a ratio with [w / s] is comparing [s] times the ratio with [w]. *)
Lemma ratio_fits (s w : Z) (a : Q) :
  0 < s → (a <= inject_Z w / inject_Z s)%Q ↔ (inject_Z s * a <= inject_Z w)%Q.
Proof.
  intros Hs.
  assert (0 < inject_Z s)%Q as Hq.
  { change (inject_Z 0 < inject_Z s)%Q. by rewrite <- Zlt_Qlt. }
  assert (¬ inject_Z s == 0)%Q as Hnz by (intros Heq; rewrite Heq in Hq; by apply Qlt_irrefl in Hq).
  split.
  - intros Ha. rewrite <- (Qmult_div_r (inject_Z w) (inject_Z s)) by done.
    by apply Qmult_le_l.
  - intros Ha. apply Qle_shift_div_l; [done|]. by rewrite Qmult_comm.
Qed.

Section BestFit.
(** The zoom table of [Zoomable]: the ratio of each level and the highest
    level. *)
Variable zoom_ratio : Z -> Q.
Variable zoom_steps : Z.

Local Abbreviation computeZoomLevel := (Viewport.computeZoomLevel zoom_ratio zoom_steps).

(** The search visits the levels from [n] down and stops at the first whose
    ratio is at most [r]. *)
Lemma largest_level_upto_spec (r : Q) (n : nat) :
  0 <= largest_level_upto zoom_ratio r n <= Z.of_nat n
  ∧ (0 < largest_level_upto zoom_ratio r n →
     (zoom_ratio (largest_level_upto zoom_ratio r n) <= r)%Q)
  ∧ ∀ l, 0 <= l <= Z.of_nat n → (zoom_ratio l <= r)%Q →
         l <= largest_level_upto zoom_ratio r n.
Proof.
  induction n as [|k (Hrange & Hle & Hmax)].
  - simpl. split; [lia|]. split; [lia|]. intros l Hl _. lia.
  - cbn [largest_level_upto].
    destruct (Qle_bool (zoom_ratio (Z.of_nat (S k))) r) eqn:Hb.
    + apply Qle_bool_iff in Hb. split; [lia|]. split; [done|]. intros l Hl _. lia.
    + split; [lia|]. split; [done|]. intros l Hl Hr.
      destruct (decide (l = Z.of_nat (S k))) as [->|Hne].
      * apply Qle_bool_iff in Hr. congruence.
      * apply Hmax; [lia|done].
Qed.

(** The level computed for a ratio is a level of the table. *)
Lemma computeZoomLevel_range (r : Q) :
  0 <= computeZoomLevel r ∧ (0 <= zoom_steps → computeZoomLevel r <= zoom_steps).
Proof.
  unfold Viewport.computeZoomLevel.
  destruct (largest_level_upto_spec r (Z.to_nat zoom_steps)) as (Hrange & _).
  split; [lia|]. intros Hz. lia.
Qed.

(** When some level of the table has a ratio of at most [r], the level
    computed for [r] is the largest that does. *)
Lemma computeZoomLevel_largest (r : Q) :
  (∃ l, 0 <= l <= zoom_steps ∧ (zoom_ratio l <= r)%Q) →
  largest_level_within zoom_ratio zoom_steps r (computeZoomLevel r).
Proof.
  intros (l0 & Hl0 & Hr0). unfold Viewport.computeZoomLevel.
  destruct (largest_level_upto_spec r (Z.to_nat zoom_steps)) as (Hrange & Hle & Hmax).
  rewrite Z2Nat.id in Hrange, Hmax by lia.
  split; [done|]. split; [|done].
  destruct (decide (0 < largest_level_upto zoom_ratio r (Z.to_nat zoom_steps)))
    as [Hpos|Hzero]; [by apply Hle|].
  assert (largest_level_upto zoom_ratio r (Z.to_nat zoom_steps) = 0) as -> by lia.
  assert (l0 = 0) as <-; [|done].
  specialize (Hmax l0 Hl0 Hr0). lia.
Qed.

(** Clamping leaves a computed level as it is. *)
Lemma setZoomLevel_computeZoomLevel (r : Q) (ui : UI) :
  zoom_level (setZoomLevel zoom_steps (computeZoomLevel r) ui) = computeZoomLevel r.
Proof.
  unfold setZoomLevel. simpl.
  destruct (computeZoomLevel_range r) as [H0 Hmax].
  destruct (decide (0 <= zoom_steps)) as [Hz|Hz].
  - specialize (Hmax Hz). lia.
  - unfold Viewport.computeZoomLevel in *.
    rewrite Z2Nat.nonpos in * by lia. simpl in *. lia.
Qed.


End BestFit.



End ViewportFacts.

(** ** Layer reordering, further properties *)

Module ReorderMore.
Import Reorder ReorderFacts.

(** A completed reorder puts the moved layer at the target, shifts by one,
    towards the place it left, every layer between the two positions, and
    leaves the priority of every other layer as it was. *)
Theorem moveLayer_places (moved : nat) (target : Z) (tl : bTimeline) (priority : Z) :
  layers tl !! moved = Some priority →
  NoDup (layers tl) →
  ∃ tl', moveLayer moved target tl = Some tl'
    ∧ layers tl' !! moved = Some target
    ∧ ∀ j p, j ≠ moved → layers tl !! j = Some p →
        layers tl' !! j =
          Some (if bool_decide (target <= p < priority) then p + 1
                else if bool_decide (priority < p <= target) then p - 1
                else p).
Proof.
  intros Hm Hnd.
  destruct (moveLayer_layers moved target tl priority Hm Hnd) as (tl' & Hrun & Hl & _).
  exists tl'. split; [done|]. rewrite Hl. split.
  - rewrite list_lookup_fmap, Hm. simpl. unfold renumber.
    by rewrite bool_decide_eq_true_2.
  - intros j p Hj Hp. rewrite list_lookup_fmap, Hp. simpl. f_equal.
    assert (p ≠ priority) as Hne.
    { intros ->. apply Hj. by eapply NoDup_lookup. }
    unfold renumber, shifted_up, shifted_down.
    repeat case_bool_decide; lia.
Qed.

Lemma moveLayer_places_witness :
  ∃ tl', moveLayer 2 0 three_layers = Some tl'
    ∧ layers tl' !! 2%nat = Some 0
    ∧ ∀ j p, j ≠ 2%nat → layers three_layers !! j = Some p →
        layers tl' !! j =
          Some (if bool_decide (0 <= p < 2) then p + 1
                else if bool_decide (2 < p <= 0) then p - 1
                else p).
Proof.
  apply (moveLayer_places 2 0 three_layers 2).
  - reflexivity.
  - apply (bool_decide_unpack _). vm_compute. exact I.
Defined.

(** With pairwise distinct priorities, a reorder keeps the other layers in
    the order they were in: of two layers that are not the moved one, the one
    above stays above. *)
Theorem moveLayer_keeps_order (moved : nat) (target : Z) (tl : bTimeline)
    (i j : nat) (pi pj : Z) :
  NoDup (layers tl) →
  (moved < length (layers tl))%nat →
  i ≠ moved → j ≠ moved →
  layers tl !! i = Some pi → layers tl !! j = Some pj →
  pi < pj →
  ∃ tl' pi' pj', moveLayer moved target tl = Some tl'
    ∧ layers tl' !! i = Some pi' ∧ layers tl' !! j = Some pj'
    ∧ pi' < pj'.
Proof.
  intros Hnd Hlt Hi Hj Hpi Hpj Hlt'.
  destruct (lookup_lt_is_Some_2 _ _ Hlt) as [priority Hm].
  destruct (moveLayer_layers moved target tl priority Hm Hnd) as (tl' & Hrun & Hl & _).
  exists tl', (renumber target priority pi), (renumber target priority pj).
  split; [done|]. rewrite Hl, !list_lookup_fmap, Hpi, Hpj. simpl.
  split; [done|]. split; [done|].
  assert (pi ≠ priority) by (intros ->; apply Hi; by eapply NoDup_lookup).
  assert (pj ≠ priority) by (intros ->; apply Hj; by eapply NoDup_lookup).
  unfold renumber, shifted_up, shifted_down. repeat case_bool_decide; lia.
Qed.

Lemma moveLayer_keeps_order_witness :
  ∃ tl' pi' pj', moveLayer 3 1 (mkTimeline [0; 1; 2; 3] true) = Some tl'
    ∧ layers tl' !! 1%nat = Some pi' ∧ layers tl' !! 2%nat = Some pj'
    ∧ pi' < pj'.
Proof.
  apply (moveLayer_keeps_order 3 1 (mkTimeline [0; 1; 2; 3] true) 1 2 1 2).
  - apply (bool_decide_unpack _). vm_compute. exact I.
  - simpl. lia.
  - discriminate.
  - discriminate.
  - reflexivity.
  - reflexivity.
  - lia.
Defined.

(** With pairwise distinct priorities, moving a layer and then moving it
    back to the priority it had restores every priority. *)
Theorem moveLayer_back (moved : nat) (target : Z) (tl : bTimeline) (priority : Z) :
  layers tl !! moved = Some priority →
  NoDup (layers tl) →
  ∃ tl1 tl2, moveLayer moved target tl = Some tl1
    ∧ moveLayer moved priority tl1 = Some tl2
    ∧ layers tl2 = layers tl.
Proof.
  intros Hm Hnd.
  destruct (moveLayer_layers moved target tl priority Hm Hnd) as (tl1 & Hrun1 & Hl1 & _).
  assert (layers tl1 !! moved = Some target) as Hm1.
  { rewrite Hl1, list_lookup_fmap, Hm. simpl. unfold renumber.
    by rewrite bool_decide_eq_true_2. }
  assert (NoDup (layers tl1)) as Hnd1.
  { rewrite Hl1. by apply NoDup_fmap_2; [apply _|]. }
  destruct (moveLayer_layers moved priority tl1 target Hm1 Hnd1) as (tl2 & Hrun2 & Hl2 & _).
  exists tl1, tl2. split; [done|]. split; [done|].
  rewrite Hl2, Hl1, <- list_fmap_compose.
  rewrite <- (list_fmap_id (layers tl)) at 2.
  apply list_fmap_ext. intros _ p _. simpl.
  unfold renumber, shifted_up, shifted_down. repeat case_bool_decide; lia.
Qed.

Lemma moveLayer_back_witness :
  ∃ tl1 tl2, moveLayer 0 2 three_layers = Some tl1
    ∧ moveLayer 0 0 tl1 = Some tl2
    ∧ layers tl2 = layers three_layers.
Proof.
  apply (moveLayer_back 0 2 three_layers 0).
  - reflexivity.
  - apply (bool_decide_unpack _). vm_compute. exact I.
Defined.

(** From the first statement of [moveLayer] to the last priority write the
    model's update propagation is off; the call returns with it on, whatever
    it was before. *)
Theorem moveLayer_updates_bracket (moved : nat) (target : Z) (tl : bTimeline) :
  (moved < length (layers tl))%nat →
  moveLayer_trace moved target tl ≠ []
  ∧ (∀ st, st ∈ moveLayer_trace moved target tl → updates st = false)
  ∧ ∃ tl', moveLayer moved target tl = Some tl' ∧ updates tl' = true.
Proof.
  intros Hlt. destruct (lookup_lt_is_Some_2 _ _ Hlt) as [priority Hm].
  split; [|split].
  - unfold moveLayer_trace. by rewrite Hm.
  - intros st. unfold moveLayer_trace. rewrite Hm.
    set (tl2 := set_priority moved 999 (enable_update false tl)).
    intros [->|[->|Hin]%elem_of_cons]%elem_of_cons; [done|done|].
    apply elem_of_app in Hin as [Hin|Hin].
    + unfold shift_layers_trace, for_layers_trace in Hin.
      repeat case_bool_decide.
      * by rewrite (iterations_updates _ (shift_up_body_updates target priority) _ _ _ Hin).
      * by rewrite (iterations_updates _ (shift_down_body_updates target priority) _ _ _ Hin).
      * by apply elem_of_nil in Hin.
    + apply list_elem_of_singleton in Hin as ->. simpl.
      by rewrite shift_layers_updates.
  - unfold moveLayer. rewrite Hm. by eexists.
Qed.

Lemma moveLayer_updates_bracket_witness :
  moveLayer_trace 2 0 three_layers ≠ []
  ∧ (∀ st, st ∈ moveLayer_trace 2 0 three_layers → updates st = false)
  ∧ ∃ tl', moveLayer 2 0 three_layers = Some tl' ∧ updates tl' = true.
Proof.
  apply (moveLayer_updates_bracket 2 0 three_layers). simpl. lia.
Defined.

End ReorderMore.

(** ** Selectable lists and preset names *)

Module ListsFacts.
Import Lists.

Lemma str_le_refl (a : string) : str_le a a = true.
Proof.
  induction a as [|x a IH]; simpl; [done|].
  by rewrite Nat.ltb_irrefl.
Qed.

Lemma str_le_total (a b : string) : str_le a b = false → str_le b a = true.
Proof.
  revert b. induction a as [|x a IH]; intros [|y b]; simpl; try done.
  destruct (Nat.ltb_spec (nat_of_ascii x) (nat_of_ascii y)); [done|].
  destruct (Nat.ltb_spec (nat_of_ascii y) (nat_of_ascii x)); [done|].
  apply IH.
Qed.

Section Rows.
Context {Factory : Type} (get_rank : Factory -> Z) (get_longname : Factory -> string).

Local Abbreviation row := (string * Factory)%type.

Lemma insert_row_Permutation (r : row) rows : insert_row r rows ≡ₚ r :: rows.
Proof.
  induction rows as [|r' rest IH]; simpl; [done|].
  destruct (str_le r.1 r'.1); [done|].
  rewrite IH. apply Permutation_swap.
Qed.

Lemma sort_rows_Permutation (rows : list row) : sort_rows rows ≡ₚ rows.
Proof.
  induction rows as [|r rest IH]; simpl; [done|].
  by rewrite insert_row_Permutation, IH.
Qed.

Lemma insert_row_Sorted (r : row) rows :
  Sorted by_name rows → Sorted by_name (insert_row r rows).
Proof.
  induction rows as [|r' rest IH]; simpl; intros Hs.
  - by repeat constructor.
  - destruct (str_le r.1 r'.1) eqn:Hle.
    + constructor; [done|]. by constructor.
    + apply Sorted_inv in Hs as [Hs Hhd]. constructor; [by apply IH|].
      destruct rest as [|r'' rest]; simpl.
      * constructor. by apply str_le_total.
      * destruct (str_le r.1 r''.1).
        -- constructor. by apply str_le_total.
        -- constructor. by apply HdRel_inv in Hhd.
Qed.

Lemma sort_rows_Sorted (rows : list row) : Sorted by_name (sort_rows rows).
Proof.
  induction rows as [|r rest IH]; simpl; [constructor|].
  by apply insert_row_Sorted.
Qed.

(** Inserting a row leaves the rows of any one name in their order, the new
    row first among those of its own name. *)
Lemma insert_row_filter (name : string) (r : row) rows :
  filter (fun r0 : row => r0.1 = name) (insert_row r rows)
  = filter (fun r0 : row => r0.1 = name) (r :: rows).
Proof.
  induction rows as [|r' rest IH]; simpl; [done|].
  destruct (str_le r.1 r'.1) eqn:Hle; [done|].
  rewrite filter_cons, IH, !filter_cons.
  destruct (decide (r'.1 = name)) as [Hr'|Hr']; [|done].
  destruct (decide (r.1 = name)) as [Hr|Hr]; [|done].
  rewrite Hr, <- Hr', str_le_refl in Hle. discriminate.
Qed.

Lemma sort_rows_filter (name : string) (rows : list row) :
  filter (fun r0 : row => r0.1 = name) (sort_rows rows)
  = filter (fun r0 : row => r0.1 = name) rows.
Proof.
  induction rows as [|r rest IH]; simpl; [done|].
  by rewrite insert_row_filter, !filter_cons, IH.
Qed.

(** [factorylist] returns one row per factory of positive rank, carrying its
    display name; the rows are in ascending order of display name, and rows
    with the same display name keep the order the factories came in. *)
Theorem factorylist_sorted_stable (factories : list Factory) :
  Sorted by_name (factorylist get_rank get_longname factories)
  ∧ factorylist get_rank get_longname factories ≡ₚ rows_of get_rank get_longname factories
  ∧ (∀ name,
       filter (fun r : row => r.1 = name) (factorylist get_rank get_longname factories)
       = filter (fun r : row => r.1 = name) (rows_of get_rank get_longname factories))
  ∧ (∀ name factory,
       (name, factory) ∈ factorylist get_rank get_longname factories
       ↔ factory ∈ factories ∧ 0 < get_rank factory
         ∧ name = Beautify.beautify_factoryname (get_longname factory)).
Proof.
  unfold factorylist.
  split; [apply sort_rows_Sorted|]. split; [apply sort_rows_Permutation|].
  split; [intros name; apply sort_rows_filter|].
  intros name factory. rewrite sort_rows_Permutation. unfold rows_of.
  rewrite list_elem_of_fmap. split.
  - intros (f & [= -> ->] & Hin). apply list_elem_of_In, filter_In in Hin as [Hin Hr].
    split; [by apply list_elem_of_In|]. split; [by apply Z.ltb_lt|done].
  - intros (Hin & Hr & ->). exists factory. split; [done|].
    apply list_elem_of_In, filter_In. split; [by apply list_elem_of_In|by apply Z.ltb_lt].
Qed.

End Rows.

(** *** Fresh preset names *)

Lemma decimal_inj (j k : nat) : decimal j = decimal k → j = k.
Proof.
  unfold decimal. intros Heq.
  assert (Nat.to_uint j = Nat.to_uint k) as Hu.
  { apply (f_equal NilEmpty.uint_of_string) in Heq.
    rewrite !NilEmpty.usu in Heq. congruence. }
  apply (f_equal Nat.of_uint) in Hu. by rewrite !Unsigned.of_to in Hu.
Qed.

Lemma append_inj_r (p a b : string) : String.append p a = String.append p b → a = b.
Proof. induction p as [|c p IH]; simpl; [done|]. intros [= H]. by apply IH. Qed.

Lemma candidate_S (k : nat) :
  candidate (S k) = String.append "New preset" (String " " (decimal (S k))).
Proof. reflexivity. Qed.

Lemma candidate_inj (j k : nat) : candidate j = candidate k → j = k.
Proof.
  assert (candidate 0 = String.append "New preset" "") as H0 by reflexivity.
  destruct j as [|j], k as [|k]; [done| | |].
  - rewrite H0, candidate_S. by intros ?%append_inj_r.
  - rewrite H0, candidate_S. by intros ?%append_inj_r.
  - rewrite !candidate_S. intros [= H]%append_inj_r. by apply decimal_inj.
Qed.

(** The loop, started on the [j]-th candidate, stops at the first candidate
    that is free, if its fuel reaches that far. *)
Lemma unique_name_loop_finds (existing : list string) (fuel j k : nat) :
  (j ≤ k < j + fuel)%nat →
  candidate k ∉ existing →
  (∀ i, (j ≤ i < k)%nat → candidate i ∈ existing) →
  unique_name_loop fuel existing (candidate j) (S j) = Some (candidate k).
Proof.
  revert j. induction fuel as [|fuel IH]; intros j Hk Hfree Hused; [lia|].
  simpl. destruct (decide (j = k)) as [->|Hne].
  - by rewrite bool_decide_eq_false_2.
  - rewrite bool_decide_eq_true_2 by (apply Hused; lia).
    apply (IH (S j)); [lia|done|]. intros i Hi. apply Hused. lia.
Qed.

(** Among the first [n + 1] candidates one is not among [n] names. *)
Lemma some_candidate_free (existing : list string) :
  ∃ k, (k ≤ length existing)%nat ∧ (candidate k ∉ existing)
       ∧ ∀ i, (i < k)%nat → candidate i ∈ existing.
Proof.
  assert (∀ n, (∀ i, (i < n)%nat → candidate i ∈ existing) → (n ≤ length existing)%nat)
    as Hbound.
  { intros n Hall.
    assert (candidate <$> seq 0 n ⊆+ existing) as Hsub.
    { apply NoDup_submseteq.
      - apply NoDup_fmap_2; [|apply NoDup_seq]. intros a b. apply candidate_inj.
      - intros x (i & -> & Hi)%list_elem_of_fmap. apply Hall.
        apply elem_of_seq in Hi. lia. }
    apply submseteq_length in Hsub. by rewrite length_fmap, length_seq in Hsub. }
  assert (∀ n, (∀ i, (i < n)%nat → candidate i ∈ existing) ∨
               ∃ k, (k < n)%nat ∧ (candidate k ∉ existing)
                    ∧ ∀ i, (i < k)%nat → candidate i ∈ existing) as Hsearch.
  { induction n as [|n [Hall|(k & Hk & Hfree & Hused)]].
    - left. lia.
    - destruct (decide (candidate n ∈ existing)) as [Hin|Hout].
      + left. intros i Hi. destruct (decide (i = n)) as [->|]; [done|]. apply Hall. lia.
      + right. exists n. split; [lia|done].
    - right. exists k. split; [lia|done]. }
  destruct (Hsearch (S (length existing))) as [Hall|(k & Hk & Hfree & Hused)].
  - apply Hbound in Hall. lia.
  - exists k. split; [lia|done].
Qed.

(** [_getUniquePresetName] ends after at most one test more than there are
    presets, with a name no preset has: "New preset" when that is free, else
    "New preset k" for the least k from 1 that is. More fuel changes nothing. *)
Theorem _getUniquePresetName_fresh (existing : list string) (fuel : nat) :
  ∃ k, (k ≤ length existing)%nat
    ∧ (candidate k ∉ existing)
    ∧ (∀ i, (i < k)%nat → candidate i ∈ existing)
    ∧ _getUniquePresetName (S (length existing) + fuel) existing = Some (candidate k).
Proof.
  destruct (some_candidate_free existing) as (k & Hk & Hfree & Hused).
  exists k. split; [done|]. split; [done|]. split; [done|].
  unfold _getUniquePresetName. change "New preset" with (candidate 0).
  apply unique_name_loop_finds; [lia|done|].
  intros i Hi. apply Hused. lia.
Qed.

End ListsFacts.

(** ** Output check buttons *)

Module OutputsFacts.
Import Outputs.

Lemma click_keeps_render (w : Widgets) (c : Click) :
  render_matches_outputs w → render_matches_outputs (click w c).
Proof.
  unfold render_matches_outputs.
  destruct w as [a v ? ? ? ? ? ? ? ? ? r], c; simpl; intros ->; by destruct a, v.
Qed.

(** However the two output check buttons are clicked, the render button
    stays usable exactly when at least one output is selected, provided it
    was so to begin with; and after a click on a check button the widgets of
    that output are sensitive exactly when the output is selected. *)
Theorem clicks_keep_render (w : Widgets) (clicks : list Click) :
  render_matches_outputs w →
  render_matches_outputs (foldl click w clicks)
  ∧ (∀ w0,
       let wa := click w0 ClickAudio in
       let wv := click w0 ClickVideo in
       audio_output_checkbutton wa = negb (audio_output_checkbutton w0)
       ∧ [channels_combo wa; sample_rate_combo wa; sample_depth_combo wa;
          audio_encoder_combo wa; audio_settings_button wa]
         = replicate 5 (audio_output_checkbutton wa)
       ∧ video_output_checkbutton wv = negb (video_output_checkbutton w0)
       ∧ [scale_spinbutton wv; frame_rate_combo wv; video_encoder_combo wv;
          video_settings_button wv]
         = replicate 4 (video_output_checkbutton wv)).
Proof.
  intros Hw. split.
  - revert w Hw. induction clicks as [|c clicks IH]; intros w Hw; simpl; [done|].
    by apply IH, click_keeps_render.
  - intros [a v ? ? ? ? ? ? ? ? ? r]. simpl. by destruct a, v.
Qed.

Lemma clicks_keep_render_witness :
  render_matches_outputs (foldl click all_on [ClickAudio; ClickVideo; ClickAudio])
  ∧ (∀ w0,
       let wa := click w0 ClickAudio in
       let wv := click w0 ClickVideo in
       audio_output_checkbutton wa = negb (audio_output_checkbutton w0)
       ∧ [channels_combo wa; sample_rate_combo wa; sample_depth_combo wa;
          audio_encoder_combo wa; audio_settings_button wa]
         = replicate 5 (audio_output_checkbutton wa)
       ∧ video_output_checkbutton wv = negb (video_output_checkbutton w0)
       ∧ [scale_spinbutton wv; frame_rate_combo wv; video_encoder_combo wv;
          video_settings_button wv]
         = replicate 4 (video_output_checkbutton wv)).
Proof.
  apply (clicks_keep_render all_on [ClickAudio; ClickVideo; ClickAudio]).
  reflexivity.
Defined.

End OutputsFacts.

(** ** Encoder / muxer compatibility, further properties *)

Module ResolverMore.
Import Resolver ResolverFacts.

Lemma list_compat_spec (a1 b1 : list string) :
  list_compat a1 b1 = true ↔ ∀ x1, x1 ∈ a1 → x1 ∈ b1.
Proof.
  induction a1 as [|x rest IH]; simpl.
  - split; [|done]. by intros _ ? ?%elem_of_nil.
  - case_bool_decide as Hx.
    + rewrite IH. split.
      * intros Hall y [->|?]%elem_of_cons; [done|by apply Hall].
      * intros Hall y Hy. apply Hall. by right.
    + split; [done|]. intros Hall. destruct Hx. apply Hall. by left.
Qed.

Lemma sublist_List_filter {A} (f : A → bool) (l : list A) : List.filter f l `sublist_of` l.
Proof.
  induction l as [|x l IH]; simpl; [done|].
  destruct (f x); [by apply sublist_skip|by apply sublist_cons].
Qed.

Section Caps.
Context {Caps : Type} (intersects : Caps -> Caps -> bool).

Local Abbreviation Factory := (ElementFactory Caps).

(** The words of a factory's class string. *)
Local Abbreviation words := (fun fact : Factory => split_on "/" (get_klass fact)).

Lemma _buildFactories_filters (factories : list Factory) :
  _muxers (_buildFactories factories) = List.filter is_muxer factories
  ∧ _videoEncoders (_buildFactories factories)
    = List.filter (fun f => negb (is_muxer f) && is_video_encoder f) factories
  ∧ _audioEncoders (_buildFactories factories)
    = List.filter (fun f => negb (is_muxer f) && negb (is_video_encoder f)
                            && is_audio_encoder f) factories.
Proof.
  induction factories as [|f rest (IHm & IHv & IHa)]; simpl; [done|].
  destruct (is_muxer f), (is_video_encoder f), (is_audio_encoder f); simpl;
    rewrite ?IHm, ?IHv, ?IHa; done.
Qed.

(** [_buildFactories] sorts the registry's factories into three lists by the
    words of their class string: with "Codec" and "Muxer" a factory is a
    muxer, whatever else it says; otherwise with "Codec", "Encoder" and
    "Video" or "Image" it is a video encoder; otherwise with "Codec",
    "Encoder" and "Audio" an audio encoder. No factory is in two lists, and
    each list keeps the registry's order. *)
Theorem _buildFactories_classes (factories : list Factory) :
  let c := _buildFactories factories in
  (∀ f, f ∈ _muxers c ↔
        f ∈ factories ∧ "Codec" ∈ words f ∧ "Muxer" ∈ words f)
  ∧ (∀ f, f ∈ _videoEncoders c ↔
          f ∈ factories ∧ ¬ ("Codec" ∈ words f ∧ "Muxer" ∈ words f)
          ∧ "Codec" ∈ words f ∧ "Encoder" ∈ words f
          ∧ ("Video" ∈ words f ∨ "Image" ∈ words f))
  ∧ (∀ f, f ∈ _audioEncoders c ↔
          f ∈ factories ∧ ¬ ("Codec" ∈ words f ∧ "Muxer" ∈ words f)
          ∧ ¬ ("Video" ∈ words f ∨ "Image" ∈ words f)
          ∧ "Codec" ∈ words f ∧ "Encoder" ∈ words f ∧ "Audio" ∈ words f)
  ∧ (∀ f, ¬ (f ∈ _muxers c ∧ f ∈ _videoEncoders c)
          ∧ ¬ (f ∈ _muxers c ∧ f ∈ _audioEncoders c)
          ∧ ¬ (f ∈ _videoEncoders c ∧ f ∈ _audioEncoders c))
  ∧ _muxers c `sublist_of` factories
  ∧ _videoEncoders c `sublist_of` factories
  ∧ _audioEncoders c `sublist_of` factories.
Proof.
  intros c. destruct (_buildFactories_filters factories) as (Hm & Hv & Ha).
  fold c in Hm, Hv, Ha.
  assert (∀ f : Factory, is_muxer f = true ↔ "Codec" ∈ words f ∧ "Muxer" ∈ words f) as Hmux.
  { intros f. unfold is_muxer. rewrite list_compat_spec. split.
    - intros H. split; apply H; set_solver.
    - intros [? ?] x Hx. set_unfold. naive_solver. }
  assert (∀ f : Factory, is_video_encoder f = true ↔
            "Codec" ∈ words f ∧ "Encoder" ∈ words f
            ∧ ("Video" ∈ words f ∨ "Image" ∈ words f)) as Hvid.
  { intros f. unfold is_video_encoder. rewrite orb_true_iff, !list_compat_spec. split.
    - intros [H|H]; (split; [apply H; set_solver|]); (split; [apply H; set_solver|]).
      + left. apply H. set_solver.
      + right. apply H. set_solver.
    - intros (? & ? & [?|?]); [left|right]; intros x Hx; set_unfold; naive_solver. }
  assert (∀ f : Factory, is_audio_encoder f = true ↔
            "Codec" ∈ words f ∧ "Encoder" ∈ words f ∧ "Audio" ∈ words f) as Haud.
  { intros f. unfold is_audio_encoder. rewrite list_compat_spec. split.
    - intros H. repeat split; apply H; set_solver.
    - intros (? & ? & ?) x Hx. set_unfold. naive_solver. }
  assert (∀ f, f ∈ _muxers c ↔ f ∈ factories ∧ is_muxer f = true) as Him.
  { intros f. by rewrite Hm, list_elem_of_In, filter_In, <- list_elem_of_In. }
  assert (∀ f, f ∈ _videoEncoders c ↔
               f ∈ factories ∧ is_muxer f = false ∧ is_video_encoder f = true) as Hiv.
  { intros f. rewrite Hv, list_elem_of_In, filter_In, <- list_elem_of_In.
    rewrite andb_true_iff, negb_true_iff. tauto. }
  assert (∀ f, f ∈ _audioEncoders c ↔
               f ∈ factories ∧ is_muxer f = false ∧ is_video_encoder f = false
               ∧ is_audio_encoder f = true) as Hia.
  { intros f. rewrite Ha, list_elem_of_In, filter_In, <- list_elem_of_In.
    rewrite !andb_true_iff, !negb_true_iff. tauto. }
  assert (∀ b : bool, b = false ↔ ¬ b = true) as Hnb by (intros []; naive_solver).
  split; [|split; [|split; [|split; [|split; [|split]]]]].
  - intros f. rewrite Him, Hmux. tauto.
  - intros f. rewrite Hiv, Hnb, Hmux, Hvid. tauto.
  - intros f. rewrite Hia, !Hnb, Hmux, Hvid, Haud. tauto.
  - intros f. rewrite Him, Hiv, Hia. repeat split; intros [? ?]; naive_solver.
  - rewrite Hm. apply sublist_List_filter.
  - rewrite Hv. apply sublist_List_filter.
  - rewrite Ha. apply sublist_List_filter.
Qed.

(** The classification is computed on the first access and served from the
    cache afterwards, whatever the registry has become; the "feature-added"
    callback drops it, and the next access classifies the registry anew.
    [available_combinations] sees the registry through the same cache. *)
Theorem cache_served_until_feature_added (registry registry' : list Factory) :
  let cache := (available_muxers registry None).2 in
  available_muxers registry' cache = (_muxers (_buildFactories registry), cache)
  ∧ available_audio_encoders registry' cache
    = (_audioEncoders (_buildFactories registry), cache)
  ∧ available_video_encoders registry' cache
    = (_videoEncoders (_buildFactories registry), cache)
  ∧ available_combinations intersects registry' cache
    = available_combinations intersects registry None
  ∧ available_muxers registry' (_registryFeatureAddedCb cache)
    = (_muxers (_buildFactories registry'), Some (_buildFactories registry'))
  ∧ available_combinations intersects registry' (_registryFeatureAddedCb cache)
    = available_combinations intersects registry' None.
Proof. repeat split. Qed.

(** Whether a muxer can take some capabilities does not depend on the path
    taken: the slow path over the muxer's templates and the fast path over
    the muxer's own sink capabilities give one answer, namely whether some
    sink template of the muxer meets them. So handing
    [encoders_muxer_compatible] the muxer's sink capabilities as a cache
    changes nothing, while a cache that is not empty is used as it is, the
    muxer no longer being looked at. *)
Theorem my_can_sink_caps_paths_agree (muxer : Factory) (ocaps : Caps) :
  my_can_sink_caps intersects muxer ocaps [] =
    my_can_sink_caps intersects muxer ocaps (sink_caps muxer)
  ∧ (my_can_sink_caps intersects muxer ocaps [] = true
     ↔ Resolver.sinks_meet intersects muxer ocaps)
  ∧ (∀ encoders,
       encoders_muxer_compatible intersects encoders muxer (sink_caps muxer)
       = encoders_muxer_compatible intersects encoders muxer [])
  ∧ (∀ encoders c cs (muxer' : Factory),
       encoders_muxer_compatible intersects encoders muxer (c :: cs)
       = encoders_muxer_compatible intersects encoders muxer' (c :: cs)).
Proof.
  assert (my_can_sink_caps intersects muxer ocaps [] = true
          ↔ Resolver.sinks_meet intersects muxer ocaps) as Hslow.
  { apply slow_path_sinks_meet. }
  split; [|split; [done|split]].
  - pose proof (my_can_sink_caps_sinks intersects muxer ocaps) as Hfast.
    destruct (my_can_sink_caps intersects muxer ocaps []),
             (my_can_sink_caps intersects muxer ocaps (sink_caps muxer)); try done.
    + symmetry. apply Hfast, Hslow. done.
    + apply Hslow, Hfast. done.
  - intros encoders. unfold encoders_muxer_compatible.
    by destruct (sink_caps muxer).
  - intros encoders c cs muxer'. unfold encoders_muxer_compatible.
    induction encoders as [|e rest IH]; simpl; [done|]. rewrite IH.
    assert (∀ tpls, some_src_template_fits intersects muxer (c :: cs) tpls
                    = some_src_template_fits intersects muxer' (c :: cs) tpls) as Hfits.
    { induction tpls as [|tpl tpls IHt]; simpl; [done|]. by rewrite IHt. }
    by rewrite Hfits.
Qed.

End Caps.

End ResolverMore.

(** ** Display names and codec settings, further properties *)

Module NamesMore.
Import Beautify BeautifyFacts.

Lemma replace_from_absent (old new s : string) :
  occurs old s = false → replace_from old new 0 s = s.
Proof.
  induction s as [|c s IH]; simpl; [done|].
  intros [Hp Ho]%orb_false_iff. simpl in Hp. rewrite Hp. by rewrite IH.
Qed.

Lemma replace_absent (old new s : string) :
  old ≠ EmptyString → occurs old s = false → replace old new s = s.
Proof.
  intros Hne Ho. destruct old; [done|]. by apply replace_from_absent.
Qed.

Lemma remove_words_absent (words : list string) (s : string) :
  (∀ w, w ∈ words → w ≠ EmptyString ∧ occurs w s = false) →
  remove_words words s = s.
Proof.
  unfold remove_words. induction words as [|w words IH]; simpl; intros Hall; [done|].
  destruct (Hall w) as [Hne Ho]; [by left|].
  rewrite (replace_absent _ _ _ Hne Ho). apply IH. intros w' Hw'. apply Hall. by right.
Qed.

Lemma replace_words_absent (pairs : list (string * string)) (s : string) :
  (∀ p, p ∈ pairs → p.1 ≠ EmptyString ∧ occurs p.1 s = false) →
  replace_words pairs s = s.
Proof.
  unfold replace_words. induction pairs as [|p pairs IH]; simpl; intros Hall; [done|].
  destruct (Hall p) as [Hne Ho]; [by left|].
  rewrite (replace_absent _ _ _ Hne Ho). apply IH. intros p' Hp'. apply Hall. by right.
Qed.

(** A long name in which none of the listed words occurs, and which is
    already a line of words separated by single spaces, is returned as it
    is. *)
Theorem beautify_factoryname_unchanged (ws : list string) :
  Forall word ws →
  (∀ w, w ∈ words_to_remove → occurs w (join " " ws) = false) →
  (∀ p, p ∈ words_to_replace → occurs p.1 (join " " ws) = false) →
  beautify_factoryname (join " " ws) = join " " ws.
Proof.
  intros Hws Hrem Hrep. unfold beautify_factoryname.
  rewrite remove_words_absent.
  - rewrite replace_words_absent; [by rewrite split_join|].
    intros p Hp. split; [|by apply Hrep].
    apply list_elem_of_In in Hp. simpl in Hp.
    repeat (destruct Hp as [<-|Hp]; [discriminate|]). destruct Hp.
  - intros w Hw. split; [|by apply Hrem].
    apply list_elem_of_In in Hw. simpl in Hw.
    repeat (destruct Hw as [<-|Hw]; [discriminate|]). destruct Hw.
Qed.

Lemma beautify_factoryname_unchanged_witness :
  beautify_factoryname (join " " ["Ogg"; "Vorbis"]) = join " " ["Ogg"; "Vorbis"].
Proof.
  apply (beautify_factoryname_unchanged ["Ogg"; "Vorbis"]).
  - repeat constructor.
  - intros w Hw. apply list_elem_of_In in Hw. simpl in Hw.
    repeat (destruct Hw as [<-|Hw]; [reflexivity|]). destruct Hw.
  - intros p Hp. apply list_elem_of_In in Hp. simpl in Hp.
    repeat (destruct Hp as [<-|Hp]; [reflexivity|]). destruct Hp.
Defined.

Import RenderDialog RenderDialogFacts.

(** When the audio codec settings name a property the video codec settings
    lack, adding an element of the audio encoder ends in [KeyError] on such a
    name. *)
Theorem _elementAddedCb_audio_KeyError {Value Factory : Type} `{EqDecision Factory}
    (venc aenc : Factory) (settings : RenderSettings Value)
    (element : Element Value Factory) :
  get_factory element = aenc → aenc ≠ venc →
  ¬ dom (acodecsettings settings) ⊆ dom (vcodecsettings settings) →
  ∃ k, k ∈ dom (acodecsettings settings) ∧ vcodecsettings settings !! k = None
       ∧ _elementAddedCb venc aenc settings element = Raise (KeyError k).
Proof. apply _elementAddedCb_KeyError. Qed.

Lemma _elementAddedCb_audio_KeyError_witness :
  ∃ k, k ∈ dom (acodecsettings mismatched_settings)
       ∧ vcodecsettings mismatched_settings !! k = None
       ∧ _elementAddedCb "x264enc" "vorbisenc" mismatched_settings new_vorbisenc
         = Raise (KeyError k).
Proof.
  apply (_elementAddedCb_audio_KeyError "x264enc" "vorbisenc"
           mismatched_settings new_vorbisenc).
  - reflexivity.
  - discriminate.
  - simpl. rewrite !dom_singleton_L. intros Hsub.
    assert ("quality" ∈ ({["bitrate"]} : gset string)) as Hin.
    { apply Hsub. by apply elem_of_singleton. }
    apply elem_of_singleton in Hin. discriminate.
Defined.

End NamesMore.

(** ** The timeline viewport, further properties *)

Module ViewportMore.
Import Viewport ViewportFacts.

Section Layout.
Variable nsToPixel : Z -> Z -> Z.
Variables EXPANDED_SIZE SPACING : Z.

Local Abbreviation _setElementY := (Viewport._setElementY EXPANDED_SIZE SPACING).
Local Abbreviation _add_layer := (Viewport._add_layer EXPANDED_SIZE SPACING).
Local Abbreviation zoomChanged := (Viewport.zoomChanged nsToPixel).
Local Abbreviation _setElementX := (Viewport._setElementX nsToPixel).

Lemma nbrLayers_bound m ui t :
  bTimeline (stage ui) = Some t →
  nbrLayers m ui = Ok (Z.of_nat (length (get_layers (timeline_at m t)))).
Proof. intros Ht. unfold nbrLayers. by rewrite Ht. Qed.

Lemma _setElementY_bound m ui t (element : Proxy) :
  bTimeline (stage ui) = Some t →
  ∃ element', _setElementY m ui element = Ok element'
    ∧ bElement element' = bElement element
    ∧ x element' = x element
    ∧ y element' =
        (if decide (get_track_type (element_at m (bElement element)) = AUDIO)
         then Z.of_nat (length (get_layers (timeline_at m t))) * (EXPANDED_SIZE + SPACING)
         else 0)
        + (layer_priority (element_at m (bElement element)) * (EXPANDED_SIZE + SPACING)
           + SPACING).
Proof.
  intros Ht. unfold Viewport._setElementY. rewrite (nbrLayers_bound m ui t Ht).
  destruct (decide _); simpl; eauto.
Qed.

Lemma _setElementY_z m ui (element element' : Proxy) :
  _setElementY m ui element = Ok element' →
  z_position element' = z_position element.
Proof.
  unfold Viewport._setElementY. destruct (decide _); simpl.
  - destruct (nbrLayers m ui); simpl; [|done]. by intros [= <-].
  - by intros [= <-].
Qed.

(** On a bound viewport with rows of positive height, two elements of one
    track type on different layers are at least a row apart, and every video
    element lies at least a row above every audio element, the layer
    priorities being those of existing layers. *)
Theorem _setElementY_rows m ui t (a b : Proxy) :
  bTimeline (stage ui) = Some t →
  0 < EXPANDED_SIZE + SPACING →
  let n := Z.of_nat (length (get_layers (timeline_at m t))) in
  let ea := element_at m (bElement a) in
  let eb := element_at m (bElement b) in
  0 <= layer_priority ea < n →
  0 <= layer_priority eb < n →
  ∃ a' b', _setElementY m ui a = Ok a' ∧ _setElementY m ui b = Ok b'
    ∧ (get_track_type ea = get_track_type eb →
       layer_priority ea < layer_priority eb →
       y a' + (EXPANDED_SIZE + SPACING) <= y b')
    ∧ (get_track_type ea = VIDEO → get_track_type eb = AUDIO →
       y a' + (EXPANDED_SIZE + SPACING) <= y b').
Proof.
  intros Ht Hrow n ea eb Ha Hb.
  destruct (_setElementY_bound m ui t a Ht) as (a' & Hra & _ & _ & Hya).
  destruct (_setElementY_bound m ui t b Ht) as (b' & Hrb & _ & _ & Hyb).
  exists a', b'. split; [done|]. split; [done|].
  rewrite Hya, Hyb. fold ea eb n. split.
  - intros Htype Hlt. rewrite Htype. destruct (decide _); nia.
  - intros -> ->. simpl. nia.
Qed.

Lemma setY_all_bound m ui t (els : list Proxy) :
  bTimeline (stage ui) = Some t →
  ∃ els', setY_all EXPANDED_SIZE SPACING m ui els = Ok els'.
Proof.
  intros Ht. induction els as [|e els (els' & IH)]; simpl; [by eexists|].
  destruct (_setElementY_bound m ui t e Ht) as (e' & -> & _). simpl.
  rewrite IH. simpl. by eexists.
Qed.

Lemma _add_layer_bound m ui t layer :
  bTimeline (stage ui) = Some t →
  ∃ ui', _add_layer m ui layer = Ok ui'
    ∧ bTimeline (stage ui') = Some t
    ∧ connections ui' = connections ui
    ∧ c_bTimeline (container ui') = c_bTimeline (container ui)
    ∧ controlActors (container ui')
      = controlActors (container ui) ++ [(layer, false); (layer, true)].
Proof.
  intros Ht. unfold Viewport._add_layer.
  destruct (setY_all_bound m ui t (elements (stage ui)) Ht) as (els & ->). simpl.
  rewrite (nbrLayers_bound m ui t Ht). simpl.
  unfold _updatePlayHead, nbrLayers. simpl. rewrite Ht. simpl.
  eexists. split; [done|]. by simpl.
Qed.

Lemma _add_layers_bound m layers ui t :
  bTimeline (stage ui) = Some t →
  ∃ ui', rfold (_add_layer m) ui layers = Ok ui'
    ∧ bTimeline (stage ui') = Some t
    ∧ connections ui' = connections ui
    ∧ c_bTimeline (container ui') = c_bTimeline (container ui)
    ∧ controlActors (container ui')
      = controlActors (container ui) ++ (layers ≫= fun l => [(l, false); (l, true)]).
Proof.
  revert ui. induction layers as [|l layers IH]; intros ui Ht; simpl.
  - exists ui. by rewrite app_nil_r.
  - destruct (_add_layer_bound m ui t l Ht) as (u1 & -> & Ht1 & Hc1 & Hb1 & Ha1). simpl.
    destruct (IH u1 Ht1) as (u2 & Hrun & Ht2 & Hc2 & Hb2 & Ha2).
    exists u2. split; [done|]. split; [done|]. split; [congruence|].
    split; [congruence|]. rewrite Ha2, Ha1. by rewrite <- app_assoc.
Qed.

Lemma zoomChanged_bound m ui t t' :
  bTimeline (stage ui) = Some t →
  c_bTimeline (container ui) = Some t' →
  ∃ ui', zoomChanged m ui = Ok ui'
    ∧ zoom_level ui' = zoom_level ui
    ∧ connections ui' = connections ui
    ∧ bTimeline (stage ui') = Some t
    ∧ c_bTimeline (container ui') = Some t'
    ∧ controlActors (container ui') = controlActors (container ui)
    ∧ embed_width (container ui') = embed_width (container ui)
    ∧ elements (stage ui') = _setElementX m ui <$> elements (stage ui)
    ∧ playhead_x (stage ui') = nsToPixel (zoom_level ui) (lastPosition (stage ui))
    ∧ lastPosition (stage ui') = lastPosition (stage ui)
    ∧ width (stage ui') = nsToPixel (zoom_level ui) (get_duration (timeline_at m t)) + 250
    ∧ hadj (container ui')
      = mkAdjustment 0
          (nsToPixel (zoom_level ui) (get_duration (timeline_at m t'))
           + (controls_width + scrollbar_width) + end_padding)
          (embed_width (container ui))
          (inject_Z (nsToPixel (zoom_level ui) (get_duration (timeline_at m t'))) * (9 # 10))%Q
          (inject_Z (nsToPixel (zoom_level ui) (get_duration (timeline_at m t'))) * (1 # 10))%Q.
Proof.
  intros Ht Ht'. unfold Viewport.zoomChanged, _redraw, _updateSize, updateHScrollAdjustments.
  rewrite Ht. simpl. rewrite Ht'. simpl.
  eexists. split; [done|]. simpl.
  repeat split; try done; by case_bool_decide.
Qed.

Lemma _setElementX_twice m u1 u2 (els : list Proxy) :
  _setElementX m u1 <$> (_setElementX m u2 <$> els) = _setElementX m u1 <$> els.
Proof.
  rewrite <- list_fmap_compose. apply list_fmap_ext. by intros _ [] _.
Qed.

(** On a bound viewport the zoom change handler puts every proxy at the
    pixel of its element's start at the current zoom level and the playhead
    at the pixel of the last known position, keeping the proxies and their
    rows. The new places depend on the model and the zoom level alone:
    running the handler again changes nothing, and the layout reached at a
    zoom level is the same whether or not another level was shown before. *)
Theorem zoomChanged_places m ui t t' :
  bTimeline (stage ui) = Some t →
  c_bTimeline (container ui) = Some t' →
  ∃ ui', zoomChanged m ui = Ok ui'
    ∧ elements (stage ui') = _setElementX m ui <$> elements (stage ui)
    ∧ playhead_x (stage ui') = nsToPixel (zoom_level ui) (lastPosition (stage ui))
    ∧ zoomChanged m ui' = Ok ui'
    ∧ ∀ z, ∃ u1 u2,
        zoomChanged m (with_zoom_level z ui) = Ok u1
        ∧ zoomChanged m (with_zoom_level z ui') = Ok u2
        ∧ elements (stage u1) = elements (stage u2)
        ∧ playhead_x (stage u1) = playhead_x (stage u2)
        ∧ width (stage u1) = width (stage u2)
        ∧ hadj (container u1) = hadj (container u2).
Proof.
  intros Ht Ht'.
  destruct (zoomChanged_bound m ui t t' Ht Ht')
    as (ui' & Hrun & Hz & Hc & Hs & Hcb & Hca & Hew & Hel & Hph & Hlp & Hw & Hh).
  exists ui'. split; [done|]. split; [done|]. split; [done|]. split.
  - clear Hel Hph Hw Hh Hlp Hca Hcb Hs Hc Hz Hew.
    destruct ui as [z cs [bt els w h px ph si lp] [cbt hj vu fit ca ew rw]].
    simpl in Ht, Ht'. subst bt cbt.
    unfold Viewport.zoomChanged, _redraw, _updateSize, updateHScrollAdjustments in *.
    simpl in *. injection Hrun as <-.
    case_bool_decide; simpl.
    + rewrite bool_decide_eq_true_2 by done. simpl.
      by rewrite _setElementX_twice.
    + rewrite bool_decide_eq_false_2 by done. simpl.
      by rewrite _setElementX_twice.
  - intros z.
    destruct (zoomChanged_bound m (with_zoom_level z ui) t t' Ht Ht')
      as (u1 & Hrun1 & _ & _ & _ & _ & _ & _ & Hel1 & Hph1 & _ & Hw1 & Hh1).
    destruct (zoomChanged_bound m (with_zoom_level z ui') t t' Hs Hcb)
      as (u2 & Hrun2 & _ & _ & _ & _ & _ & _ & Hel2 & Hph2 & _ & Hw2 & Hh2).
    exists u1, u2. split; [done|]. split; [done|].
    rewrite Hel1, Hel2, Hph1, Hph2, Hw1, Hw2, Hh1, Hh2. simpl.
    rewrite Hel, Hlp, Hew. split; [|done].
    by rewrite _setElementX_twice.
Qed.

End Layout.

Lemma _setElementY_rows_witness :
  ∃ a' b',
    Viewport._setElementY sample_EXPANDED_SIZE sample_SPACING layout_model showing_ui
      (mkProxy 7 false (-1) 0 0) = Ok a'
    ∧ Viewport._setElementY sample_EXPANDED_SIZE sample_SPACING layout_model showing_ui
        (mkProxy 8 false (-1) 0 0) = Ok b'
    ∧ (VIDEO = AUDIO → 0 < 1 → y a' + (sample_EXPANDED_SIZE + sample_SPACING) <= y b')
    ∧ (VIDEO = VIDEO → AUDIO = AUDIO →
       y a' + (sample_EXPANDED_SIZE + sample_SPACING) <= y b').
Proof.
  apply (_setElementY_rows sample_EXPANDED_SIZE sample_SPACING layout_model showing_ui 1
           (mkProxy 7 false (-1) 0 0) (mkProxy 8 false (-1) 0 0)).
  - reflexivity.
  - reflexivity.
  - simpl. lia.
  - simpl. lia.
Defined.

Lemma zoomChanged_places_witness :
  ∃ ui', Viewport.zoomChanged sample_nsToPixel layout_model showing_ui = Ok ui'
    ∧ elements (stage ui')
      = Viewport._setElementX sample_nsToPixel layout_model showing_ui
          <$> elements (stage showing_ui)
    ∧ playhead_x (stage ui') = 18
    ∧ Viewport.zoomChanged sample_nsToPixel layout_model ui' = Ok ui'
    ∧ ∀ z, ∃ u1 u2,
        Viewport.zoomChanged sample_nsToPixel layout_model (with_zoom_level z showing_ui)
          = Ok u1
        ∧ Viewport.zoomChanged sample_nsToPixel layout_model (with_zoom_level z ui') = Ok u2
        ∧ elements (stage u1) = elements (stage u2)
        ∧ playhead_x (stage u1) = playhead_x (stage u2)
        ∧ width (stage u1) = width (stage u2)
        ∧ hadj (container u1) = hadj (container u2).
Proof.
  apply (zoomChanged_places sample_nsToPixel layout_model showing_ui 1 1).
  - reflexivity.
  - reflexivity.
Defined.

Section Binding.
Variable nsToPixel : Z -> Z -> Z.
Variables EXPANDED_SIZE SPACING : Z.
Variable strict : bool.

Local Abbreviation setTimeline := (Viewport.setTimeline nsToPixel EXPANDED_SIZE SPACING strict).
Local Abbreviation container_setTimeline :=
  (Viewport.container_setTimeline nsToPixel EXPANDED_SIZE SPACING strict).
Local Abbreviation disconnect_by_func := (Viewport.disconnect_by_func strict).
Local Abbreviation _add_layer := (Viewport._add_layer EXPANDED_SIZE SPACING).

Lemma existsb_connected obj cb (cs : list Connection) :
  existsb (connected obj cb) cs = true
  ↔ ∃ c, c ∈ cs ∧ emitter c = obj ∧ callback c = cb.
Proof.
  rewrite existsb_exists. unfold connected. split.
  - intros (c & Hin & [He Hc]%andb_true_iff). exists c.
    apply bool_decide_eq_true in He, Hc. by rewrite list_elem_of_In.
  - intros (c & Hin & He & Hc). exists c. rewrite <- list_elem_of_In.
    split; [done|]. apply andb_true_iff. by rewrite !bool_decide_eq_true.
Qed.

(** A disconnect that returns has removed the connections of that callback
    on that object and nothing else. *)
Lemma disconnect_by_func_result obj cb ui ui' :
  disconnect_by_func obj cb ui = Ok ui' →
  (∀ c, c ∈ connections ui' ↔ c ∈ connections ui ∧ ¬ (emitter c = obj ∧ callback c = cb))
  ∧ stage ui' = stage ui ∧ container ui' = container ui ∧ zoom_level ui' = zoom_level ui.
Proof.
  unfold Viewport.disconnect_by_func. destruct (existsb _ _) eqn:Hex.
  - intros [= <-]. simpl. split; [|done]. intros c.
    rewrite list_elem_of_In, filter_In, <- list_elem_of_In. unfold connected.
    rewrite negb_true_iff, andb_false_iff, !bool_decide_eq_false. 
    split; intros [? ?]; (split; [done|]); [tauto|].
    destruct (decide (emitter c = obj)); [|by left].
    destruct (decide (callback c = cb)); [|by right]. tauto.
  - destruct strict; [done|]. intros [= <-]. split; [|done]. intros c.
    split; [|tauto]. intros Hin. split; [done|]. intros [He Hc].
    assert (existsb (connected obj cb) (connections ui) = true) as Htrue.
    { apply existsb_connected. by exists c. }
    congruence.
Qed.

Lemma disconnect_by_func_connected obj cb ui :
  (∃ c, c ∈ connections ui ∧ emitter c = obj ∧ callback c = cb) →
  ∃ ui', disconnect_by_func obj cb ui = Ok ui'.
Proof.
  intros H%existsb_connected. unfold Viewport.disconnect_by_func. rewrite H. by eexists.
Qed.

(** Disconnecting a list of distinct callbacks, each of them connected. *)
Lemma disconnect_each obj (cbs : list Callback) ui :
  NoDup cbs →
  (∀ cb, cb ∈ cbs → ∃ c, c ∈ connections ui ∧ emitter c = obj ∧ callback c = cb) →
  ∃ a, rfold (fun u cb => disconnect_by_func obj cb u) ui cbs = Ok a
    ∧ (∀ c, c ∈ connections a ↔
            c ∈ connections ui ∧ ¬ (emitter c = obj ∧ callback c ∈ cbs))
    ∧ stage a = stage ui ∧ container a = container ui ∧ zoom_level a = zoom_level ui.
Proof.
  revert ui. induction cbs as [|cb cbs IH]; intros ui Hnd Hall; simpl.
  - exists ui. split; [done|]. split; [|done]. intros c. split; [|tauto].
    intros Hin. split; [done|]. by intros [_ ?%elem_of_nil].
  - apply NoDup_cons in Hnd as [Hcb Hnd].
    destruct (disconnect_by_func_connected obj cb ui) as [u1 D]; [apply Hall; by left|].
    rewrite D. simpl.
    destruct (disconnect_by_func_result _ _ _ _ D) as (R & Hs & Hc & Hz).
    destruct (IH u1 Hnd) as (a & Hrun & Ra & Hsa & Hca & Hza).
    { intros cb' Hcb'. destruct (Hall cb') as (c & Hin & He & Hc'); [by right|].
      exists c. split; [|done]. apply R. split; [done|].
      intros [_ Heq]. rewrite Hc' in Heq. by subst. }
    exists a. split; [done|]. split; [|by rewrite Hsa, Hca, Hza].
    intros c. rewrite Ra, R. rewrite elem_of_cons.
    destruct (decide (callback c = cb)); naive_solver.
Qed.

Lemma _connectTracks_result tracks ui :
  connections (foldl _connectTrack ui tracks) = connections ui ++ track_connections tracks
  ∧ stage (foldl _connectTrack ui tracks) = stage ui
  ∧ container (foldl _connectTrack ui tracks) = container ui
  ∧ zoom_level (foldl _connectTrack ui tracks) = zoom_level ui.
Proof.
  revert ui. induction tracks as [|tr tracks IH]; intros ui; simpl.
  - by rewrite app_nil_r.
  - destruct (IH (_connectTrack ui tr)) as (-> & -> & -> & ->). simpl.
    split; [|done]. unfold track_connections. simpl.
    by rewrite <- !app_assoc.
Qed.

(** The viewport without its timeline reference. *)
Local Abbreviation unbound := (fun a : UI => with_stage (with_bTimeline None (stage a)) a).

Lemma zoomChanged_no_container m ui t :
  bTimeline (stage ui) = Some t →
  c_bTimeline (container ui) = None →
  zoomChanged nsToPixel m ui = Raise AttributeError.
Proof.
  intros Ht Hc. unfold zoomChanged, _redraw, _updateSize, updateHScrollAdjustments.
  rewrite Ht. simpl. by rewrite Hc.
Qed.

Lemma timeline_connections_listen t cb :
  cb ∈ timeline_callbacks →
  ∃ c, c ∈ timeline_connections t ∧ emitter c = Timeline t ∧ callback c = cb.
Proof.
  intros H. apply list_elem_of_In in H. simpl in H.
  destruct H as [<-|[<-|[<-|[<-|[<-|[<-|[]]]]]]].
  - exists (mkConnection (Timeline t) "track-added" _trackAddedCb).
    split; [|done]. apply list_elem_of_In. simpl. auto 10.
  - exists (mkConnection (Timeline t) "track-removed" _trackRemovedCb).
    split; [|done]. apply list_elem_of_In. simpl. auto 10.
  - exists (mkConnection (Timeline t) "layer-added" _layerAddedCb).
    split; [|done]. apply list_elem_of_In. simpl. auto 10.
  - exists (mkConnection (Timeline t) "layer-removed" _layerRemovedCb).
    split; [|done]. apply list_elem_of_In. simpl. auto 10.
  - exists (mkConnection (Timeline t) "snapping-started" _snapCb_).
    split; [|done]. apply list_elem_of_In. simpl. auto 10.
  - exists (mkConnection (Timeline t) "snapping-ended" _snapEndedCb_).
    split; [|done]. apply list_elem_of_In. simpl. auto 10.
Qed.

(** Binding a viewport that holds no timeline. *)
Lemma setTimeline_unbound m new ui :
  bTimeline (stage ui) = None →
  (∀ t', c_bTimeline (container ui) = Some t' →
     ∃ ui', setTimeline m new ui = Ok ui'
       ∧ bTimeline (stage ui') = Some new
       ∧ c_bTimeline (container ui') = Some t'
       ∧ connections ui'
         = connections ui ++ track_connections (get_tracks (timeline_at m new))
             ++ timeline_connections new
       ∧ controlActors (container ui')
         = controlActors (container ui)
             ++ (get_layers (timeline_at m new) ≫= fun l => [(l, false); (l, true)]))
  ∧ (c_bTimeline (container ui) = None → setTimeline m new ui = Raise AttributeError).
Proof.
  intros Hnone. unfold Viewport.setTimeline. rewrite Hnone. simpl.
  set (u0 := with_stage (with_bTimeline (Some new) (stage ui)) ui).
  destruct (_connectTracks_result (get_tracks (timeline_at m new)) u0) as (Hc1 & Hs1 & Hb1 & Hz1).
  set (u1 := foldl _connectTrack u0 (get_tracks (timeline_at m new))) in *.
  assert (bTimeline (stage u1) = Some new) as Ht1 by (by rewrite Hs1).
  destruct (_add_layers_bound EXPANDED_SIZE SPACING m (get_layers (timeline_at m new)) u1 new Ht1)
    as (u2 & Hrun2 & Ht2 & Hc2 & Hb2 & Ha2).
  rewrite Hrun2. simpl.
  set (u3 := connect (Timeline new) "snapping-ended" _snapEndedCb_ _).
  assert (bTimeline (stage u3) = Some new) as Ht3 by done.
  assert (connections u3 = connections ui
            ++ track_connections (get_tracks (timeline_at m new))
            ++ timeline_connections new) as Hc3.
  { unfold u3. simpl. rewrite Hc2, Hc1. unfold timeline_connections.
    by rewrite <- !app_assoc. }
  split.
  - intros t' Hcb.
    assert (c_bTimeline (container u3) = Some t') as Hcb3.
    { unfold u3. simpl. by rewrite Hb2, Hb1. }
    destruct (zoomChanged_bound nsToPixel m u3 new t' Ht3 Hcb3)
      as (ui' & Hrun & _ & Hc & Hs & Hcb' & Hca & _).
    exists ui'. split; [done|]. split; [done|]. split; [done|].
    split; [by rewrite Hc|]. rewrite Hca. unfold u3. simpl.
    by rewrite Ha2, Hb1.
  - intros Hcb.
    assert (c_bTimeline (container u3) = None) as Hcb3.
    { unfold u3. simpl. by rewrite Hb2, Hb1. }
    by apply (zoomChanged_no_container m u3 new).
Qed.

(** A rebind whose disconnects return goes on as a first binding would. *)
Lemma setTimeline_after_disconnects m new ui old a :
  bTimeline (stage ui) = Some old →
  rfold (fun u cb => disconnect_by_func (Timeline old) cb u) ui timeline_callbacks = Ok a →
  setTimeline m new ui = setTimeline m new (unbound a).
Proof.
  intros Hold Hrun. unfold Viewport.setTimeline. rewrite Hold. simpl in Hrun |- *.
  repeat match type of Hrun with
  | context [Viewport.disconnect_by_func ?s ?o ?c ?u] =>
      destruct (Viewport.disconnect_by_func s o c u);
      simpl in Hrun |- *; [|discriminate Hrun]
  end.
  injection Hrun as ->. reflexivity.
Qed.

(** Bound through its container, a viewport that holds no timeline is
    always bound with success: two connections per track of the timeline and
    six on the timeline are added after those there were, and a video and an
    audio control are added per layer. Bound directly, while its container
    has no timeline either, the same call ends in [AttributeError]. *)
Theorem setTimeline_first_binding m new ui :
  bTimeline (stage ui) = None →
  (∃ ui', container_setTimeline m new ui = Ok ui'
     ∧ bTimeline (stage ui') = Some new
     ∧ c_bTimeline (container ui') = Some new
     ∧ listening new ui'
     ∧ connections ui'
       = connections ui ++ track_connections (get_tracks (timeline_at m new))
           ++ timeline_connections new
     ∧ controlActors (container ui')
       = controlActors (container ui)
           ++ (get_layers (timeline_at m new) ≫= fun l => [(l, false); (l, true)]))
  ∧ (c_bTimeline (container ui) = None → setTimeline m new ui = Raise AttributeError).
Proof.
  intros Hnone. split.
  - unfold Viewport.container_setTimeline.
    set (u := with_container _ ui).
    destruct (setTimeline_unbound m new u Hnone) as [Hok _].
    destruct (Hok new eq_refl) as (ui' & Hrun & Hs & Hcb & Hc & Hca).
    exists ui'. split; [done|]. split; [done|]. split; [done|].
    split; [|done]. intros cb Hcb'. rewrite Hc.
    destruct (timeline_connections_listen new cb Hcb') as (c & Hin & He).
    exists c. split; [|done]. rewrite !elem_of_app. by right; right.
  - by apply setTimeline_unbound.
Qed.

(** Rebinding a viewport on whose timeline the six callbacks are connected
    succeeds: those callbacks are disconnected from the old timeline, every
    other connection is kept, and the new timeline and its tracks are
    connected as in a first binding. Unless the viewport is rebound to the
    timeline it had, none of the six remains on the old timeline. *)
Theorem setTimeline_rebinding m new ui old t' :
  bTimeline (stage ui) = Some old →
  listening old ui →
  c_bTimeline (container ui) = Some t' →
  ∃ ui', setTimeline m new ui = Ok ui'
    ∧ bTimeline (stage ui') = Some new
    ∧ listening new ui'
    ∧ (∀ c, c ∈ connections ui' ↔
            (c ∈ connections ui ∧ ¬ (emitter c = Timeline old ∧ callback c ∈ timeline_callbacks))
            ∨ c ∈ track_connections (get_tracks (timeline_at m new))
            ∨ c ∈ timeline_connections new)
    ∧ (old ≠ new →
       ∀ c, c ∈ connections ui' → emitter c = Timeline old →
            callback c ∉ timeline_callbacks).
Proof.
  intros Hold Hl Hcb.
  destruct (disconnect_each (Timeline old) timeline_callbacks ui) as (a & Hrun & Ra & Hsa & Hca & Hza).
  { apply (bool_decide_unpack _). vm_compute. exact I. }
  { exact Hl. }
  rewrite (setTimeline_after_disconnects m new ui old a Hold Hrun).
  destruct (setTimeline_unbound m new (unbound a) eq_refl) as [Hok _].
  destruct (Hok t') as (ui' & Hrun' & Hs & _ & Hc & _).
  { simpl. by rewrite Hca. }
  simpl in Hc.
  assert (∀ c, c ∈ connections ui' ↔
            (c ∈ connections ui ∧ ¬ (emitter c = Timeline old ∧ callback c ∈ timeline_callbacks))
            ∨ c ∈ track_connections (get_tracks (timeline_at m new))
            ∨ c ∈ timeline_connections new) as Hmem.
  { intros c. by rewrite Hc, !elem_of_app, Ra. }
  exists ui'. split; [done|]. split; [done|]. split; [|split; [done|]].
  - intros cb Hcb'.
    destruct (timeline_connections_listen new cb Hcb') as (c & Hin & He).
    exists c. split; [|done]. apply Hmem. by right; right.
  - intros Hne c Hin He Hcbs. apply Hmem in Hin as [[_ Hn]|[Hin|Hin]].
    + by apply Hn.
    + unfold track_connections in Hin. apply list_elem_of_bind in Hin as (tr & Hin & _).
      apply list_elem_of_In in Hin. simpl in Hin.
      destruct Hin as [<-|[<-|[]]]; discriminate He.
    + apply list_elem_of_In in Hin. simpl in Hin.
      repeat (destruct Hin as [<-|Hin]; [simpl in He; congruence|]). destruct Hin.
Qed.

Local Abbreviation _addTimelineElement :=
  (Viewport._addTimelineElement nsToPixel EXPANDED_SIZE SPACING).
Local Abbreviation _removeTimelineElement := (Viewport._removeTimelineElement strict).

Lemma loop_variable_fresh b (els : list Proxy) x i cur :
  (∀ p, p ∈ els → bElement p ≠ b) → bElement x = b →
  loop_variable b (els ++ [x]) i cur = Some (i + length els)%nat.
Proof.
  revert i cur. induction els as [|e els IH]; intros i cur Hall Hx; simpl.
  - rewrite decide_True by done. f_equal. lia.
  - rewrite decide_False by (apply Hall; by left).
    rewrite IH; [f_equal; lia| |done]. intros p Hp. apply Hall. by right.
Qed.

Lemma with_elements_back (s : Stage) (els : list Proxy) :
  with_elements (elements s) (with_elements els s) = s.
Proof. by destruct s. Qed.

(** Adding an element that has no proxy to a bound viewport connects the
    four callbacks to it and appends its proxy, in the row and at the pixel
    the model gives; the removal that follows returns and leaves the stage
    and the container exactly as they were before the element was added. *)
Theorem _addTimelineElement_then_remove m ui t track b :
  bTimeline (stage ui) = Some t →
  ¬ displayed b ui →
  ∃ ui1 ui2 element,
    _addTimelineElement m ui track b = Ok ui1
    ∧ connections ui1 = connections ui ++ element_connections b
    ∧ elements (stage ui1) = elements (stage ui) ++ [element]
    ∧ bElement element = b
    ∧ z_position element = (if in_transition_clip (element_at m b) then 0 else -1)
    ∧ x element = nsToPixel (zoom_level ui) (get_start (element_at m b))
    ∧ _removeTimelineElement m ui1 track b = Ok ui2
    ∧ stage ui2 = stage ui
    ∧ container ui2 = container ui.
Proof.
  intros Ht Hfresh. unfold Viewport._addTimelineElement.
  set (e0 := if in_transition_clip (element_at m b)
             then mkProxy b true 0 0 0 else mkProxy b false (-1) 0 0).
  set (u4 := connect (Element b) "notify::priority" _elementPriorityChangedCb _).
  assert (bTimeline (stage u4) = Some t) as Ht4 by done.
  destruct (_setElementY_bound EXPANDED_SIZE SPACING m u4 t e0 Ht4)
    as (e1 & Hy & Hb1 & Hx1 & _).
  rewrite Hy. simpl.
  set (e2 := Viewport._setElementX nsToPixel m u4 e1).
  set (ui1 := with_stage (with_elements (elements (stage u4) ++ [e2]) (stage u4)) u4).
  assert (bElement e0 = b) as Hb0 by (unfold e0; by destruct (in_transition_clip _)).
  assert (bElement e2 = b) as Hb2 by (simpl; congruence).
  assert (connections ui1 = connections ui ++ element_connections b) as Hc1.
  { unfold ui1, u4, element_connections. simpl. by rewrite <- !app_assoc. }
  assert (∀ cb, cb ∈ [_elementStartChangedCb; _elementDurationChangedCb;
                      _elementInPointChangedCb] →
            ∃ c, c ∈ connections ui1 ∧ emitter c = Element b ∧ callback c = cb) as Hconn.
  { intros cb Hcb. apply list_elem_of_In in Hcb. simpl in Hcb. rewrite Hc1.
    destruct Hcb as [<-|[<-|[<-|[]]]].
    - exists (mkConnection (Element b) "notify::start" _elementStartChangedCb).
      split; [|done]. apply elem_of_app. right. apply list_elem_of_In. simpl. auto.
    - exists (mkConnection (Element b) "notify::duration" _elementDurationChangedCb).
      split; [|done]. apply elem_of_app. right. apply list_elem_of_In. simpl. auto.
    - exists (mkConnection (Element b) "notify::in-point" _elementInPointChangedCb).
      split; [|done]. apply elem_of_app. right. apply list_elem_of_In. simpl. auto. }
  destruct (disconnect_each (Element b)
              [_elementStartChangedCb; _elementDurationChangedCb; _elementInPointChangedCb]
              ui1) as (a & Hrun & _ & Hsa & Hca & _).
  { apply (bool_decide_unpack _). vm_compute. exact I. }
  { exact Hconn. }
  assert (_removeTimelineElement m ui1 track b
          = Ok (with_stage (with_elements (elements (stage ui)) (stage a)) a)) as Hrem.
  { unfold Viewport._removeTimelineElement. simpl in Hrun.
    repeat match type of Hrun with
    | context [Viewport.disconnect_by_func ?s ?o ?c ?u] =>
        destruct (Viewport.disconnect_by_func s o c u);
        simpl in Hrun |- *; [|discriminate Hrun]
    end.
    injection Hrun as ->. rewrite Hsa. simpl.
    rewrite (loop_variable_fresh b (elements (stage ui)) e2 0 None).
    - simpl. by rewrite delete_middle, app_nil_r.
    - intros p Hp Hpb. apply Hfresh. by exists p.
    - done. }
  exists ui1, (with_stage (with_elements (elements (stage ui)) (stage a)) a), e2.
  split; [done|]. split; [done|]. split; [done|]. split; [done|].
  split.
  { simpl. rewrite (_setElementY_z EXPANDED_SIZE SPACING m u4 e0 e1 Hy).
    unfold e0. by destruct (in_transition_clip _). }
  split; [simpl; by rewrite Hb1, Hb0|].
  split; [done|]. simpl. rewrite Hsa, Hca. split; [|done].
  unfold ui1. simpl. apply with_elements_back.
Qed.

End Binding.

Lemma setTimeline_first_binding_witness :
  (∃ ui', Viewport.container_setTimeline sample_nsToPixel sample_EXPANDED_SIZE
            sample_SPACING true sample_model 1 fresh_ui = Ok ui'
     ∧ bTimeline (stage ui') = Some 1%nat
     ∧ c_bTimeline (container ui') = Some 1%nat
     ∧ listening 1 ui'
     ∧ connections ui'
       = connections fresh_ui ++ track_connections (get_tracks (timeline_at sample_model 1))
           ++ timeline_connections 1
     ∧ controlActors (container ui')
       = controlActors (container fresh_ui)
           ++ (get_layers (timeline_at sample_model 1) ≫= fun l => [(l, false); (l, true)]))
  ∧ (c_bTimeline (container fresh_ui) = None →
     Viewport.setTimeline sample_nsToPixel sample_EXPANDED_SIZE sample_SPACING true
       sample_model 1 fresh_ui = Raise AttributeError).
Proof.
  apply (setTimeline_first_binding sample_nsToPixel sample_EXPANDED_SIZE sample_SPACING true
           sample_model 1 fresh_ui).
  reflexivity.
Defined.

Lemma setTimeline_rebinding_witness :
  ∃ ui', Viewport.setTimeline sample_nsToPixel sample_EXPANDED_SIZE sample_SPACING true
           sample_model 2 listening_ui = Ok ui'
    ∧ bTimeline (stage ui') = Some 2%nat
    ∧ listening 2 ui'
    ∧ (∀ c, c ∈ connections ui' ↔
            (c ∈ connections listening_ui
             ∧ ¬ (emitter c = Timeline 1 ∧ callback c ∈ timeline_callbacks))
            ∨ c ∈ track_connections (get_tracks (timeline_at sample_model 2))
            ∨ c ∈ timeline_connections 2)
    ∧ (1%nat ≠ 2%nat →
       ∀ c, c ∈ connections ui' → emitter c = Timeline 1 →
            callback c ∉ timeline_callbacks).
Proof.
  apply (setTimeline_rebinding sample_nsToPixel sample_EXPANDED_SIZE sample_SPACING true
           sample_model 2 listening_ui 1 1).
  - reflexivity.
  - intros cb Hcb. by apply timeline_connections_listen.
  - reflexivity.
Defined.

Lemma _addTimelineElement_then_remove_witness :
  ∃ ui1 ui2 element,
    Viewport._addTimelineElement sample_nsToPixel sample_EXPANDED_SIZE sample_SPACING
      sample_model bound_ui 10 7 = Ok ui1
    ∧ connections ui1 = connections bound_ui ++ element_connections 7
    ∧ elements (stage ui1) = elements (stage bound_ui) ++ [element]
    ∧ bElement element = 7%nat
    ∧ z_position element = (if in_transition_clip (element_at sample_model 7) then 0 else -1)
    ∧ x element = sample_nsToPixel (zoom_level bound_ui) (get_start (element_at sample_model 7))
    ∧ Viewport._removeTimelineElement true sample_model ui1 10 7 = Ok ui2
    ∧ stage ui2 = stage bound_ui
    ∧ container ui2 = container bound_ui.
Proof.
  apply (_addTimelineElement_then_remove sample_nsToPixel sample_EXPANDED_SIZE
           sample_SPACING true sample_model bound_ui 1 10 7).
  - reflexivity.
  - intros (p & Hin & _). simpl in Hin. by apply elem_of_nil in Hin.
Defined.

(** On a bound viewport the control of a layer is put at the left edge of
    the row where the elements of that layer and of the control's track type
    are put. *)
Theorem _setTrackControlPosition_row (EXPANDED_SIZE SPACING : Z) (m : Model) (ui : UI)
    (t : nat) (element : Proxy) :
  bTimeline (stage ui) = Some t →
  ∃ element',
    Viewport._setElementY EXPANDED_SIZE SPACING m ui element = Ok element'
    ∧ _setTrackControlPosition EXPANDED_SIZE SPACING m ui
        (layer_priority (element_at m (bElement element)))
        (bool_decide (get_track_type (element_at m (bElement element)) = AUDIO))
      = Ok (0, y element').
Proof.
  intros Ht.
  destruct (_setElementY_bound EXPANDED_SIZE SPACING m ui t element Ht)
    as (e' & Hrun & _ & _ & Hy).
  exists e'. split; [done|]. rewrite Hy. unfold _setTrackControlPosition.
  rewrite (nbrLayers_bound m ui t Ht).
  destruct (decide _) as [Ha|Ha].
  - rewrite bool_decide_eq_true_2 by done. simpl. do 2 f_equal. lia.
  - rewrite bool_decide_eq_false_2 by done. simpl. do 2 f_equal.
Qed.

Lemma _setTrackControlPosition_row_witness :
  ∃ element',
    Viewport._setElementY sample_EXPANDED_SIZE sample_SPACING layout_model showing_ui
      (mkProxy 8 false (-1) 0 0) = Ok element'
    ∧ _setTrackControlPosition sample_EXPANDED_SIZE sample_SPACING layout_model showing_ui
        1 true
      = Ok (0, y element').
Proof.
  apply (_setTrackControlPosition_row sample_EXPANDED_SIZE sample_SPACING layout_model
           showing_ui 1 (mkProxy 8 false (-1) 0 0)).
  reflexivity.
Defined.

End ViewportMore.

(** ** Output file name *)

Module FilenameFacts.
Import Filename.

Lemma dict_get_In (d : list (string * string)) (key v : string) :
  dict_get d key = Some v → In (key, v) d.
Proof.
  induction d as [|[k v'] d IH]; simpl; [done|].
  destruct (decide (k = key)) as [->|]; [intros [= ->]; by left|].
  intros H. right. by apply IH.
Qed.

(** Every extension of the table is a non-empty word without dot or slash. *)
Lemma extension_plain (muxer ext : string) :
  extension_for_muxer muxer = Some ext →
  plain ext = true ∧ ∃ c e, ext = String c e.
Proof.
  intros H%dict_get_In.
  assert (forallb (fun p : string * string =>
                     plain p.2 && match p.2 with EmptyString => false | _ => true end)
                  exts = true) as Hall by (vm_compute; reflexivity).
  rewrite forallb_forall in Hall. apply Hall in H. simpl in H.
  apply andb_true_iff in H as [Hp Hne]. split; [done|].
  destruct ext as [|c e]; [done|]. by exists c, e.
Qed.

Lemma plain_rfind_pos (s : string) :
  plain s = true → rfind_pos "." s = None ∧ rfind_pos "/" s = None.
Proof.
  induction s as [|a s IH]; simpl; [done|].
  intros [[Hd Hs]%andb_true_iff Hp]%andb_true_iff.
  destruct (IH Hp) as [-> ->].
  apply negb_true_iff, bool_decide_eq_false in Hd, Hs.
  split.
  - by destruct (decide (a = "."%char)).
  - by destruct (decide (a = "/"%char)).
Qed.

Lemma rfind_pos_cons_absent (a c : ascii) (s : string) :
  a ≠ c → rfind_pos c s = None → rfind_pos c (String a s) = None.
Proof. intros Hne Hs. simpl. rewrite Hs. by rewrite decide_False. Qed.

Lemma rfind_pos_app_absent (c : ascii) (s1 s2 : string) :
  rfind_pos c s2 = None → rfind_pos c (String.append s1 s2) = rfind_pos c s1.
Proof.
  intros H2. induction s1 as [|a s1 IH]; simpl; [done|]. by rewrite IH.
Qed.

Lemma rfind_pos_app_last (c : ascii) (s1 s2 : string) :
  rfind_pos c s2 = None →
  rfind_pos c (String.append s1 (String c s2)) = Some (String.length s1).
Proof.
  intros H2. induction s1 as [|a s1 IH]; simpl.
  - rewrite H2. by rewrite decide_True.
  - by rewrite IH.
Qed.

Lemma rfind_pos_lt (c : ascii) (s : string) (i : nat) :
  rfind_pos c s = Some i → (i < String.length s)%nat.
Proof.
  revert i. induction s as [|a s IH]; simpl; [done|]. intros i.
  destruct (rfind_pos c s) as [j|].
  - intros [= <-]. specialize (IH j eq_refl). lia.
  - destruct (decide (a = c)); [|done]. intros [= <-]. lia.
Qed.

Lemma get_Some_lt (s : string) (i : nat) (c : ascii) :
  String.get i s = Some c → (i < String.length s)%nat.
Proof.
  revert i. induction s as [|a s IH]; intros [|i]; simpl; try done; [lia|].
  intros H%IH. lia.
Qed.

Lemma get_lt_Some (s : string) (i : nat) :
  (i < String.length s)%nat → ∃ c, String.get i s = Some c.
Proof.
  revert i. induction s as [|a s IH]; intros [|i]; simpl; try lia; [by eexists|].
  intros H. apply IH. lia.
Qed.

Lemma get_app_l (s1 s2 : string) (i : nat) :
  (i < String.length s1)%nat → String.get i (String.append s1 s2) = String.get i s1.
Proof.
  revert i. induction s1 as [|a s1 IH]; intros [|i]; simpl; try lia; [done|].
  intros H. apply IH. lia.
Qed.

Lemma str_take_app (s1 s2 : string) :
  str_take (String.length s1) (String.append s1 s2) = s1.
Proof. induction s1 as [|a s1 IH]; simpl; [by destruct s2|]. by rewrite IH. Qed.

Lemma str_drop_app (s1 s2 : string) :
  str_drop (String.length s1) (String.append s1 s2) = s2.
Proof. induction s1 as [|a s1 IH]; simpl; [by destruct s2|]. done. Qed.

(** The loop stops at the first character that is no dot, if there is one
    before the dot and the fuel reaches it. *)
Lemma splitext_loop_stem (p : string) (fuel f d i : nat) (c : ascii) :
  (f ≤ i < d)%nat → (i - f < fuel)%nat →
  String.get i p = Some c → c ≠ "."%char →
  splitext_loop fuel p f d = (str_take d p, str_drop d p).
Proof.
  revert f. induction fuel as [|fuel IH]; intros f Hi Hfuel Hget Hc; [lia|].
  simpl. destruct (Nat.ltb_spec f d); [|lia].
  destruct (get_lt_Some p f) as [a Ha].
  { apply get_Some_lt in Hget. lia. }
  rewrite Ha. destruct (decide (a = "."%char)) as [->|]; [|done].
  assert (f ≠ i) by (intros ->; congruence).
  apply IH; [lia|lia|done|done].
Qed.

(** When the extension of the current muxer was put after a base name with
    a stem, [splitext] gives the base name back. So a change of muxer
    replaces the extension in the file entry: the entry becomes what
    [updateFilename] gives for the base name and the new muxer, which is the
    base name itself when the new muxer has no extension in the table. *)
Theorem muxer_change_replaces_extension (muxer muxer' basename : string) :
  is_Some (extension_for_muxer muxer) →
  has_stem basename →
  (splitext (updateFilename muxer basename)).1 = basename
  ∧ on_muxer_change muxer' (updateFilename muxer basename) = updateFilename muxer' basename
  ∧ (extension_for_muxer muxer' = None →
     on_muxer_change muxer' (updateFilename muxer basename) = basename).
Proof.
  intros [ext Hext] (i & c & Hsep & Hget & Hc).
  destruct (extension_plain muxer ext Hext) as (Hplain & c0 & e & ->).
  destruct (plain_rfind_pos _ Hplain) as [Hnodot Hnosep].
  assert ((splitext (updateFilename muxer basename)).1 = basename) as Hsplit.
  { unfold updateFilename. rewrite Hext.
    change (String.append "." (String c0 e)) with (String "." (String c0 e)).
    unfold splitext, rfind.
    rewrite (rfind_pos_app_last "." basename (String c0 e) Hnodot).
    rewrite (rfind_pos_app_absent "/" basename (String "." (String c0 e))).
    2:{ by apply rfind_pos_cons_absent. }
    unfold rfind in Hsep.
    pose proof (get_Some_lt _ _ _ Hget) as Hlen.
    assert (∃ sep : Z, match rfind_pos "/" basename with
                       | Some j => Z.of_nat j
                       | None => -1
                       end = sep ∧ -1 <= sep < Z.of_nat i) as (sep & Hsepeq & Hrange).
    { eexists. split; [done|]. destruct (rfind_pos "/" basename); lia. }
    rewrite Hsepeq in Hsep |- *.
    destruct (Z.gtb_spec (Z.of_nat (String.length basename)) sep); [|lia].
    rewrite (splitext_loop_stem _ _ _ _ i c).
    - simpl. rewrite Nat2Z.id. apply str_take_app.
    - rewrite Nat2Z.id. lia.
    - lia.
    - by rewrite get_app_l.
    - done. }
  split; [done|]. unfold on_muxer_change. rewrite Hsplit. split; [done|].
  intros Hnone. unfold updateFilename. by rewrite Hnone.
Qed.

Lemma muxer_change_replaces_extension_witness :
  (splitext (updateFilename "matroskamux" "my.movie")).1 = "my.movie"
  ∧ on_muxer_change "oggmux" (updateFilename "matroskamux" "my.movie")
    = updateFilename "oggmux" "my.movie"
  ∧ (extension_for_muxer "oggmux" = None →
     on_muxer_change "oggmux" (updateFilename "matroskamux" "my.movie") = "my.movie").
Proof.
  apply (muxer_change_replaces_extension "matroskamux" "oggmux" "my.movie").
  - by eexists.
  - exists 0%nat, "m"%char. split; [vm_compute; reflexivity|]. split; [reflexivity|discriminate].
Defined.

End FilenameFacts.
